(** * The resilient request client of [we-dev-client]

    A shallow embedding of [ApiClient] (src/apps/we-dev-client/src/utils/
    security.ts, second module of the file) together with the part of
    [ErrorHandler] (utils/errorHandler.ts) that the client calls.

    The client is asynchronous JavaScript.  A single call runs its attempts
    strictly one after the other, so one call is embedded as a function that
    threads a [World] through the statements of [request] in program order:
    the client's cache, the clock read by [Date.now()], the error log of the
    [errorHandler] singleton, the pending [setTimeout] handles, and a trace of
    the effects that leave the client ([fetch], [console.error], the backoff
    wait).  The platform's [fetch] is an oracle [net]: the k-th invocation of
    [fetch] behaves as [net k]. *)

From stdpp Require Import gmap strings list pretty.

Set Warnings "-register-all".

Open Scope Z_scope.

(** ** Data *)

(** A decoded JSON document ([any] in the source).  Numbers are integers. *)
Inductive Json : Type :=
  | JNull
  | JBool (b : bool)
  | JNum (n : Z)
  | JStr (s : string)
  | JArr (items : list Json)
  | JObj (fields : list (string * Json)).

(** A header list; [new Headers()] is the empty one. *)
Definition Headers : Type := list (string * string).

(** A thrown JavaScript error, as far as the client looks at it. *)
Record JsError : Type := mkJsError {
  name : string;
  message : string
}.

(** [RequestInit], restricted to the fields the client reads. *)
Record RequestInit : Type := mkRequestInit {
  init_method : option string;
  init_body : option string;
  init_headers : Headers
}.

(** The [Response] that [fetch] resolves with.  The status is an unsigned
    number.  [resp_json] is the result of [response.json()]: [None] when the
    body is not a JSON document (the promise rejects with a [SyntaxError]);
    decoding is taken to complete. *)
Record Response : Type := mkResponse {
  resp_status : N;
  resp_statusText : string;
  resp_headers : Headers;
  resp_json : option Json
}.

(** [response.ok]: the status is in the range 200-299. *)
Definition resp_ok (r : Response) : bool :=
  ((200 <=? resp_status r) && (resp_status r <=? 299))%N.

(** [interface ApiResponse]. *)
Record ApiResponse : Type := mkApiResponse {
  data : Json;
  status : N;
  statusText : string;
  headers : Headers
}.

(** [interface ApiConfig]: what the caller passes to the constructor. *)
Record ApiConfig : Type := mkApiConfig {
  baseURL : string;
  timeout : option Z;
  retries : option Z;
  retryDelay : option Z
}.

(** [this.config] once the constructor has spread the caller's fields over
    the defaults: every field is present. *)
Record Config : Type := mkConfig {
  cfg_baseURL : string;
  cfg_timeout : Z;
  cfg_retries : Z;
  cfg_retryDelay : Z
}.

(** [constructor(config)]. *)
Definition constructor (config : ApiConfig) : Config :=
  {| cfg_baseURL := baseURL config;
     cfg_timeout := default 30000 (timeout config);
     cfg_retries := default 3 (retries config);
     cfg_retryDelay := default 1000 (retryDelay config) |}.

(** A value of the [cache] map. *)
Record CacheEntry : Type := mkCacheEntry {
  ce_data : Json;
  ce_timestamp : Z;
  ce_ttl : Z
}.

(** The [details] argument the client passes to [logError]. *)
Record Details : Type := mkDetails {
  d_attempt : Z;
  d_error : option string
}.

(** [interface AppError] of errorHandler.ts. *)
Record AppError : Type := mkAppError {
  ae_code : string;
  ae_message : string;
  ae_details : Details;
  ae_timestamp : Z
}.

(** A pending [setTimeout] handle and the time at which it fires. *)
Record Timer : Type := mkTimer {
  timer_id : nat;
  fires_at : Z
}.

(** Effects that leave the client, in program order. *)
Inductive Event : Type :=
  | EvFetch (url : string) (init : RequestInit)
  | EvConsoleError (code msg : string)
  | EvSleep (ms : Z).

Record World : Type := mkWorld {
  cache : gmap string CacheEntry;
  now : Z;
  errorLog : list AppError;
  timers : list Timer;
  nextTimer : nat;
  fetches : nat;
  trace : list Event
}.

(** What one invocation of [fetch] does.  [latency] is the time after which
    the promise settles if nothing aborts it first. *)
Inductive FetchBehaviour : Type :=
  | Responds (latency : N) (r : Response)
  | NetworkFails (latency : N) (msg : string)
  | Hangs.

(** How an [async] call ends. *)
Inductive Outcome : Type :=
  | Resolved (r : ApiResponse)
  | Rejected (e : JsError).

(** ** Platform functions *)

(** Time passes: the clock moves on and every timer that is due fires and
    leaves the pending set.  The callback of a deadline timer aborts the
    controller of its own attempt; for an attempt that is over this has no
    effect. *)
Definition advance (dt : Z) (w : World) : World :=
  let t := now w + Z.max 0 dt in
  {| cache := cache w; now := t; errorLog := errorLog w;
     timers := filter (λ tm, t < fires_at tm) (timers w);
     nextTimer := nextTimer w; fetches := fetches w; trace := trace w |}.

Definition setTimeout (ms : Z) (w : World) : nat * World :=
  (nextTimer w,
   {| cache := cache w; now := now w; errorLog := errorLog w;
      timers := timers w ++ [mkTimer (nextTimer w) (now w + Z.max 0 ms)];
      nextTimer := S (nextTimer w); fetches := fetches w; trace := trace w |}).

Definition clearTimeout (id : nat) (w : World) : World :=
  {| cache := cache w; now := now w; errorLog := errorLog w;
     timers := filter (λ tm, timer_id tm ≠ id) (timers w);
     nextTimer := nextTimer w; fetches := fetches w; trace := trace w |}.

Definition emit (ev : Event) (w : World) : World :=
  {| cache := cache w; now := now w; errorLog := errorLog w;
     timers := timers w; nextTimer := nextTimer w; fetches := fetches w;
     trace := trace w ++ [ev] |}.

(** Hexadecimal digit, lower case, as [JSON.stringify] prints it. *)
Definition hex_digit (n : N) : string :=
  String.substring (N.to_nat n) 1 "0123456789abcdef".

(** [JSON.stringify] on one character of a string. *)
Definition quote_char (c : Ascii.ascii) : string :=
  let n := Ascii.N_of_ascii c in
  if (n =? 34)%N then "\" +:+ String c ""
  else if (n =? 92)%N then "\\"
  else if (n =? 8)%N then "\b"
  else if (n =? 12)%N then "\f"
  else if (n =? 10)%N then "\n"
  else if (n =? 13)%N then "\r"
  else if (n =? 9)%N then "\t"
  else if (n <? 32)%N then
    "\u00" +:+ hex_digit (n / 16) +:+ hex_digit (n mod 16)
  else String c "".

Fixpoint quote_chars (s : string) : string :=
  match s with
  | EmptyString => ""
  | String c rest => quote_char c +:+ quote_chars rest
  end.

(** [JSON.stringify] on a string. *)
Definition quote (s : string) : string :=
  String (Ascii.ascii_of_N 34) (quote_chars s) +:+ String (Ascii.ascii_of_N 34) "".

(** [JSON.stringify] on a document (no indentation). *)
Fixpoint stringify (j : Json) : string :=
  match j with
  | JNull => "null"
  | JBool true => "true"
  | JBool false => "false"
  | JNum n => pretty n
  | JStr s => quote s
  | JArr items =>
      "[" +:+ String.concat "," (map stringify items) +:+ "]"
  | JObj fields =>
      "{" +:+ String.concat ","
                (map (λ kv, quote (fst kv) +:+ ":" +:+ stringify (snd kv)) fields)
          +:+ "}"
  end.

(** Truthiness of an optional argument of type [any]. *)
Definition truthy (d : option Json) : bool :=
  match d with
  | None | Some JNull => false
  | Some (JBool b) => b
  | Some (JNum n) => negb (n =? 0)
  | Some (JStr s) => negb (String.eqb s "")
  | Some (JArr _) | Some (JObj _) => true
  end.

(** ** errorHandler.ts *)

(** [ErrorHandler.logError]: the record is pushed on [errorLog] and printed
    with [console.error].  The analytics hook of production builds is behind
    a [try] of its own and does not come back to the client. *)
Definition logError (code msg : string) (details : Details) (w : World) : World :=
  let error := mkAppError code msg details (now w) in
  emit (EvConsoleError code msg)
    {| cache := cache w; now := now w; errorLog := errorLog w ++ [error];
       timers := timers w; nextTimer := nextTimer w; fetches := fetches w;
       trace := trace w |}.

(** ** The cache of [ApiClient] *)

(** [options.method === 'GET']. *)
Definition method_is_GET (options : RequestInit) : bool :=
  match init_method options with
  | Some m => String.eqb m "GET"
  | None => false
  end.

(** [getCacheKey(url, options)]. *)
Definition getCacheKey (url : string) (options : RequestInit) : string :=
  let method := default "GET" (init_method options) in
  let method := if String.eqb method "" then "GET" else method in
  let body := match init_body options with
              | Some b => if String.eqb b "" then "" else quote b
              | None => ""
              end in
  method +:+ ":" +:+ url +:+ ":" +:+ body.

(** [isCacheValid(key)]. *)
Definition isCacheValid (key : string) (w : World) : bool :=
  match cache w !! key with
  | None => false
  | Some cached => bool_decide (now w - ce_timestamp cached < ce_ttl cached)
  end.

(** [setCache(key, data, ttl)]. *)
Definition setCache (key : string) (d : Json) (ttl : Z) (w : World) : World :=
  {| cache := <[key := mkCacheEntry d (now w) ttl]> (cache w);
     now := now w; errorLog := errorLog w; timers := timers w;
     nextTimer := nextTimer w; fetches := fetches w; trace := trace w |}.

(** [clearExpiredCache()]. *)
Definition clearExpiredCache (w : World) : World :=
  {| cache := filter (λ kv, ¬ (ce_ttl kv.2 ≤ now w - ce_timestamp kv.2)) (cache w);
     now := now w; errorLog := errorLog w; timers := timers w;
     nextTimer := nextTimer w; fetches := fetches w; trace := trace w |}.

(** ** [ApiClient.request] *)

(** Assignment of one property of an object literal: an existing key keeps
    its place and takes the new value. *)
Fixpoint set_header (k v : string) (h : Headers) : Headers :=
  match h with
  | [] => [(k, v)]
  | (k', v') :: rest =>
      if String.eqb k' k then (k, v) :: rest else (k', v') :: set_header k v rest
  end.

(** [{ 'Content-Type': 'application/json', ...options.headers }]. *)
Definition merged_headers (options : RequestInit) : Headers :=
  foldl (λ acc kv, set_header kv.1 kv.2 acc)
        [("Content-Type", "application/json")] (init_headers options).

(** The second argument of [fetch]. *)
Definition fetch_init (options : RequestInit) : RequestInit :=
  {| init_method := init_method options;
     init_body := init_body options;
     init_headers := merged_headers options |}.

(** The errors an attempt can throw. *)
Definition AbortError : JsError :=
  mkJsError "AbortError" "The operation was aborted.".
Definition TypeError (msg : string) : JsError := mkJsError "TypeError" msg.
Definition SyntaxError : JsError :=
  mkJsError "SyntaxError" "Unexpected token in JSON".
Definition HttpError (r : Response) : JsError :=
  mkJsError "Error"
    ("HTTP " +:+ pretty (resp_status r) +:+ ": " +:+ resp_statusText r).

(** The failure kinds of an attempt.  [MalformedBody] is the rejection of
    [response.json()]. *)
Inductive FailureKind : Type :=
  | Timeout
  | NetworkError
  | HttpStatus (code : N)
  | MalformedBody.

(** Completion of a [try] block: it returns from the function or throws. *)
Inductive Completion : Type :=
  | Return (r : ApiResponse)
  | Throw (e : JsError).

Section Client.

(** [this.config] and the network. *)
Variable config : Config.
Variable net : nat → FetchBehaviour.

(** [this.delay(ms)]: the call is suspended until the timer fires. *)
Definition delay (ms : Z) (w : World) : World :=
  advance ms (emit (EvSleep ms) w).

(** The fetch promise settles before the deadline timer fires. *)
Definition in_time (latency : N) : bool :=
  bool_decide (Z.of_N latency < cfg_timeout config).

(** The deadline timer fires first: its callback aborts the controller and
    [fetch] rejects with an [AbortError]. *)
Definition aborted (w : World) : Completion * World :=
  (Throw AbortError, advance (cfg_timeout config) w).

(** The body of the [try] block, lines 192-222. *)
Definition attempt_try (fullUrl : string) (options : RequestInit)
    (useCache : bool) (cacheTTL : Z) (cacheKey : string) (w : World)
    : Completion * World :=
  let '(timeoutId, w) := setTimeout (cfg_timeout config) w in
  let behaviour := net (fetches w) in
  let w := emit (EvFetch fullUrl (fetch_init options))
             {| cache := cache w; now := now w; errorLog := errorLog w;
                timers := timers w; nextTimer := nextTimer w;
                fetches := S (fetches w); trace := trace w |} in
  match behaviour with
  | Responds latency response =>
      if in_time latency then
        let w := advance (Z.of_N latency) w in
        let w := clearTimeout timeoutId w in
        if negb (resp_ok response) then (Throw (HttpError response), w)
        else
          match resp_json response with
          | None => (Throw SyntaxError, w)
          | Some d =>
              let w := if useCache && method_is_GET options
                       then setCache cacheKey d cacheTTL w else w in
              (Return {| data := d;
                         status := resp_status response;
                         statusText := resp_statusText response;
                         headers := resp_headers response |}, w)
          end
      else aborted w
  | NetworkFails latency msg =>
      if in_time latency then (Throw (TypeError msg), advance (Z.of_N latency) w)
      else aborted w
  | Hangs => aborted w
  end.

(** The [catch] block, lines 223-238. *)
Definition attempt_catch (fullUrl : string) (attempt : Z) (error : JsError)
    (w : World) : World :=
  let w :=
    if String.eqb (name error) "AbortError" then
      logError "API_TIMEOUT" ("Request timeout: " +:+ fullUrl)
               {| d_attempt := attempt; d_error := None |} w
    else
      logError "API_ERROR" ("Request failed: " +:+ fullUrl)
               {| d_attempt := attempt; d_error := Some (message error) |} w in
  if bool_decide (attempt < cfg_retries config)
  then delay (cfg_retryDelay config * 2 ^ attempt) w
  else w.

(** The [for] loop of lines 190-239 and the [throw] after it.  The loop
    variable is only read in the body, so the loop is an iteration over
    the attempt numbers that are left. *)
Fixpoint attempts (fullUrl : string) (options : RequestInit)
    (useCache : bool) (cacheTTL : Z) (cacheKey : string)
    (indices : list Z) (lastError : option JsError) (w : World)
    : Outcome * World :=
  match indices with
  | [] =>
      (Rejected (default (mkJsError "Error" "Request failed after all retries")
                         lastError), w)
  | attempt :: rest =>
      match attempt_try fullUrl options useCache cacheTTL cacheKey w with
      | (Return r, w) => (Resolved r, w)
      | (Throw error, w) =>
          attempts fullUrl options useCache cacheTTL cacheKey rest
                   (Some error) (attempt_catch fullUrl attempt error w)
      end
  end.

(** [url.startsWith('http') ? url : `${this.config.baseURL}${url}`]. *)
Definition resolve (url : string) : string :=
  if String.prefix "http" url then url else cfg_baseURL config +:+ url.

(** The guard of line 178. *)
Definition cache_hit (url : string) (options : RequestInit)
    (useCache : bool) (w : World) : bool :=
  useCache && method_is_GET options
  && isCacheValid (getCacheKey (resolve url) options) w.

(** [request(url, options, useCache, cacheTTL)]. *)
Definition request (url : string) (options : RequestInit)
    (useCache : bool) (cacheTTL : Z) (w : World) : Outcome * World :=
  let fullUrl := resolve url in
  let cacheKey := getCacheKey fullUrl options in
  if cache_hit url options useCache w then
    match cache w !! cacheKey with
    | Some cached =>
        (Resolved {| data := ce_data cached; status := 200%N;
                     statusText := "OK (Cached)"; headers := [] |}, w)
    | None =>
        (Rejected (TypeError "Cannot read properties of undefined (reading 'data')"), w)
    end
  else
    attempts fullUrl options useCache cacheTTL cacheKey
             (seqZ 0 (cfg_retries config + 1)) None w.

(** The default of [cacheTTL]: [5 * 60 * 1000]. *)
Definition default_cacheTTL : Z := 5 * 60 * 1000.

(** [get(url, useCache = true)]. *)
Definition get (url : string) (useCache : bool) (w : World) : Outcome * World :=
  request url (mkRequestInit (Some "GET") None []) useCache default_cacheTTL w.

(** [data ? JSON.stringify(data) : undefined]. *)
Definition body_of (d : option Json) : option string :=
  match d with
  | Some j => if truthy d then Some (stringify j) else None
  | None => None
  end.

(** [post(url, data)]. *)
Definition post (url : string) (d : option Json) (w : World) : Outcome * World :=
  request url (mkRequestInit (Some "POST") (body_of d) []) false default_cacheTTL w.

(** [put(url, data)]. *)
Definition put (url : string) (d : option Json) (w : World) : Outcome * World :=
  request url (mkRequestInit (Some "PUT") (body_of d) []) false default_cacheTTL w.

(** [delete(url)]. *)
Definition delete (url : string) (w : World) : Outcome * World :=
  request url (mkRequestInit (Some "DELETE") None []) false default_cacheTTL w.

(** *** Reading the attempt off the behaviour of [fetch] *)

(** The promise of [fetch] settles before the deadline. *)
Definition settles_in_time (b : FetchBehaviour) : bool :=
  match b with
  | Responds latency _ | NetworkFails latency _ => in_time latency
  | Hangs => false
  end.

(** The error an attempt throws when [fetch] behaves as [b]; [None] for an
    attempt that returns a response. *)
Definition failure (b : FetchBehaviour) : option JsError :=
  match b with
  | Responds latency r =>
      if in_time latency then
        if negb (resp_ok r) then Some (HttpError r)
        else match resp_json r with
             | None => Some SyntaxError
             | Some _ => None
             end
      else Some AbortError
  | NetworkFails latency msg =>
      if in_time latency then Some (TypeError msg) else Some AbortError
  | Hangs => Some AbortError
  end.

(** The kind of that failure. *)
Definition kind_of (b : FetchBehaviour) : option FailureKind :=
  match b with
  | Responds latency r =>
      if in_time latency then
        if negb (resp_ok r) then Some (HttpStatus (resp_status r))
        else match resp_json r with
             | None => Some MalformedBody
             | Some _ => None
             end
      else Some Timeout
  | NetworkFails latency _ =>
      if in_time latency then Some NetworkError else Some Timeout
  | Hangs => Some Timeout
  end.

(** The record that the [catch] block hands to [logError], without its
    time stamp. *)
Definition report_code (error : JsError) : string :=
  if String.eqb (name error) "AbortError" then "API_TIMEOUT" else "API_ERROR".

Definition report_message (fullUrl : string) (error : JsError) : string :=
  if String.eqb (name error) "AbortError"
  then "Request timeout: " +:+ fullUrl
  else "Request failed: " +:+ fullUrl.

Definition report_details (attempt : Z) (error : JsError) : Details :=
  if String.eqb (name error) "AbortError"
  then {| d_attempt := attempt; d_error := None |}
  else {| d_attempt := attempt; d_error := Some (message error) |}.

(** The events of one failed iteration of the loop. *)
Definition failed_iteration (fullUrl : string) (options : RequestInit)
    (attempt : Z) (error : JsError) : list Event :=
  [EvFetch fullUrl (fetch_init options);
   EvConsoleError (report_code error) (report_message fullUrl error)]
  ++ (if bool_decide (attempt < cfg_retries config)
      then [EvSleep (cfg_retryDelay config * 2 ^ attempt)] else []).

(** The error of the k-th invocation of [fetch], for a failing one. *)
Definition thrown (k : nat) : JsError :=
  default AbortError (failure (net k)).

(** The events of [n] failed iterations in a row, the first with attempt
    number [attempt] on the k-th invocation of [fetch]. *)
Fixpoint failed_events (fullUrl : string) (options : RequestInit)
    (n : nat) (attempt : Z) (k : nat) : list Event :=
  match n with
  | O => []
  | S n' =>
      failed_iteration fullUrl options attempt (thrown k)
      ++ failed_events fullUrl options n' (attempt + 1) (S k)
  end.

(** The reports of those iterations. *)
Fixpoint failed_reports (fullUrl : string)
    (n : nat) (attempt : Z) (k : nat) : list (string * string * Details) :=
  match n with
  | O => []
  | S n' =>
      (report_code (thrown k), report_message fullUrl (thrown k),
       report_details attempt (thrown k))
      :: failed_reports fullUrl n' (attempt + 1) (S k)
  end.

End Client.

(** The reports of an error log without their time stamps. *)
Definition reports (log : list AppError) : list (string * string * Details) :=
  map (λ e, (ae_code e, ae_message e, ae_details e)) log.



(** Decimal digits, for reading the status back out of an error message. *)
Definition is_digit (c : Ascii.ascii) : bool :=
  ((48 <=? Ascii.N_of_ascii c) && (Ascii.N_of_ascii c <=? 57))%N.

Fixpoint all_digits (s : string) : bool :=
  match s with
  | EmptyString => true
  | String c rest => is_digit c && all_digits rest
  end.

(** ** Sample inputs *)

Module Sample.

Definition w0 : World := mkWorld ∅ 1000 [] [] 0 0 [].

(** [new ApiClient({ baseURL, retries: 2 })]. *)
Definition cfg : Config :=
  constructor (mkApiConfig "https://api.example" None (Some 2) None).

Definition created : Response :=
  mkResponse 201 "Created" [("etag", "v1")] (Some (JNum 7)).

Definition not_found : Response :=
  mkResponse 404 "Not Found" [] (Some JNull).

(** The network is down. *)
Definition offline (k : nat) : FetchBehaviour :=
  NetworkFails 10 "Failed to fetch".

(** The server never answers. *)
Definition silent (k : nat) : FetchBehaviour := Hangs.

(** Two failures, then an answer. *)
Definition flaky (k : nat) : FetchBehaviour :=
  match k with
  | 0%nat => NetworkFails 10 "Failed to fetch"
  | 1%nat => Hangs
  | _ => Responds 5 created
  end.

(** The server answers at once. *)
Definition online (k : nat) : FetchBehaviour := Responds 5 created.

Definition entry : CacheEntry := mkCacheEntry (JNum 7) 1000 300000.

(** A world in which [GET /x] has just been stored. *)
Definition w_cached : World :=
  mkWorld {[ "GET:https://api.example/x:" := entry ]} 1000 [] [] 0 0 [].

Definition get_x : RequestInit := mkRequestInit (Some "GET") None [].

End Sample.

(** ** Further definitions for the client *)

(** Two worlds that differ at most in the cache of the client. *)
Definition same_outside_cache (w1 w2 : World) : Prop :=
  now w1 = now w2 ∧ errorLog w1 = errorLog w2 ∧ timers w1 = timers w2
  ∧ nextTimer w1 = nextTimer w2 ∧ fetches w1 = fetches w2
  ∧ trace w1 = trace w2.

(** The milliseconds asked of [this.delay] along a trace. *)
Fixpoint waited (t : list Event) : Z :=
  match t with
  | [] => 0
  | EvSleep ms :: rest => ms + waited rest
  | _ :: rest => waited rest
  end.


(** Reading a property of an object literal. *)
Fixpoint header_value (k : string) (h : Headers) : option string :=
  match h with
  | [] => None
  | (k', v) :: rest => if String.eqb k' k then Some v else header_value k rest
  end.

(** The value that a spread of [overrides] leaves under [k]: that of the
    last override with this key, [base] when there is none. *)
Fixpoint last_override (k : string) (base : option string)
    (overrides : Headers) : option string :=
  match overrides with
  | [] => base
  | (k', v) :: rest =>
      last_override k (if String.eqb k' k then Some v else base) rest
  end.

(** ** [SecurityUtils] *)

(** How a synchronous function ends: with a value or with a thrown error. *)
Inductive Raised (A : Type) : Type :=
  | Gives (a : A)
  | Raises (e : JsError).
Arguments Gives {A} a.
Arguments Raises {A} e.

(** The character class [[a-zA-Z0-9]]. *)
Definition is_alnum (c : Ascii.ascii) : bool :=
  let n := Ascii.N_of_ascii c in
  ((48 <=? n) && (n <=? 57) || (65 <=? n) && (n <=? 90)
   || (97 <=? n) && (n <=? 122))%N.

Fixpoint all_alnum (s : string) : bool :=
  match s with
  | EmptyString => true
  | String c rest => is_alnum c && all_alnum rest
  end.

(** What follows the literal [p] at the start of [s]. *)
Fixpoint strip_prefix (p s : string) : option string :=
  match p with
  | EmptyString => Some s
  | String a p' =>
      match s with
      | EmptyString => None
      | String b s' => if Ascii.eqb a b then strip_prefix p' s' else None
      end
  end.

(** [/^<prefix>[a-zA-Z0-9]{32,}$/.test(apiKey)]. *)
Definition key_shape (prefix apiKey : string) : bool :=
  match strip_prefix prefix apiKey with
  | Some body => (32 <=? String.length body)%nat && all_alnum body
  | None => false
  end.

(** The table [patterns] of [validateApiKey]: the literal prefix of the
    pattern of each provider. *)
Definition patterns : list (string * string) :=
  [("openai", "sk-"); ("openrouter", "sk-or-v1-"); ("anthropic", "sk-ant-");
   ("groq", "gsk_"); ("deepseek", "sk-"); ("mistral", ""); ("cohere", "");
   ("perplexity", "pplx-"); ("together", ""); ("fireworks", "");
   ("xai", "xai-"); ("deepinfra", ""); ("replicate", "r8_")].

(** The properties that an object literal inherits from [Object.prototype];
    none of them is falsy and none has a [test] method. *)
Definition inherited : list string :=
  ["constructor"; "__defineGetter__"; "__defineSetter__"; "hasOwnProperty";
   "__lookupGetter__"; "__lookupSetter__"; "isPrototypeOf";
   "propertyIsEnumerable"; "toString"; "valueOf"; "__proto__";
   "toLocaleString"].

(** [validateApiKey(apiKey, provider)]. *)
Definition validateApiKey (apiKey provider : string) : Raised bool :=
  if String.eqb apiKey "" then Gives false
  else
    match header_value provider patterns with
    | Some prefix => Gives (key_shape prefix apiKey)
    | None =>
        if existsb (String.eqb provider) inherited
        then Raises (TypeError "pattern.test is not a function")
        else Gives true
    end.

(** The length of the longest run of alphanumerics at the start of [s]. *)
Fixpoint alnum_run (s : string) : nat :=
  match s with
  | EmptyString => O
  | String c rest => if is_alnum c then S (alnum_run rest) else O
  end.

(** [data.replace(/sk-[a-zA-Z0-9]{8,}/g, 'sk-***')], from left to right.
    [skip] counts the characters of the current match that are still to be
    dropped. *)
Fixpoint mask_from (skip : nat) (s : string) : string :=
  match s with
  | EmptyString => ""
  | String c rest =>
      match skip with
      | S k => mask_from k rest
      | O =>
          match strip_prefix "sk-" s with
          | Some body =>
              if (8 <=? alnum_run body)%nat
              then "sk-***" +:+ mask_from (2 + alnum_run body) rest
              else String c (mask_from 0 rest)
          | None => String c (mask_from 0 rest)
          end
      end
  end.

Definition mask_string (s : string) : string := mask_from 0 s.

(** [toLowerCase()], as far as a search for ASCII letters can see it: the
    letters A-Z, and the Kelvin sign, whose lower case is [k]. *)
Definition lower_char (c : Ascii.ascii) : Ascii.ascii :=
  let n := Ascii.N_of_ascii c in
  if ((65 <=? n) && (n <=? 90))%N then Ascii.ascii_of_N (n + 32) else c.

Fixpoint lower (s : string) : string :=
  match s with
  | EmptyString => ""
  | String c rest =>
      match strip_prefix (String (Ascii.ascii_of_N 226)
                            (String (Ascii.ascii_of_N 132)
                               (String (Ascii.ascii_of_N 170) ""))) s with
      | Some _ =>
          match rest with
          | String _ (String _ rest') => String (Ascii.ascii_of_N 107) (lower rest')
          | _ => String (lower_char c) (lower rest)
          end
      | None => String (lower_char c) (lower rest)
      end
  end.

(** [s.includes(needle)]. *)
Fixpoint includes (needle s : string) : bool :=
  String.prefix needle s
  || match s with
     | EmptyString => false
     | String _ rest => includes needle rest
     end.

(** The test of line 45. *)
Definition sensitive (key : string) : bool :=
  includes "key" (lower key) || includes "token" (lower key).

(** The entries of an array as an object sees them: index and element. *)
Fixpoint indexed (i : N) (items : list Json) : list (string * Json) :=
  match items with
  | [] => []
  | x :: rest => (pretty i, x) :: indexed (i + 1) rest
  end.

(** [maskSensitiveData(data)] on a JSON document.  The copy [{ ...data }]
    of an array is an object with the indices as keys. *)
Fixpoint maskSensitiveData (d : Json) : Json :=
  match d with
  | JStr s => JStr (mask_string s)
  | JObj fields =>
      JObj (map (λ kv, (fst kv, if sensitive (fst kv) then JStr "***"
                                else maskSensitiveData (snd kv))) fields)
  | JArr items => JObj (indexed 0 (map maskSensitiveData items))
  | JNull | JBool _ | JNum _ => d
  end.

(** A document that has an array somewhere in it. *)
Fixpoint has_array (d : Json) : bool :=
  match d with
  | JArr _ => true
  | JObj fields => existsb (λ kv, has_array (snd kv)) fields
  | _ => false
  end.

(** [chars] of [generateSecureId]. *)
Definition id_chars : string :=
  "ABCDEFGHIJKLMNOPQRSTUVWXYZabcdefghijklmnopqrstuvwxyz0123456789".

(** [chars.charAt(byte % chars.length)]. *)
Definition id_char (byte : N) : string :=
  String.substring (N.to_nat (byte mod 62)) 1 id_chars.

(** [generateSecureId(length)].  [entropy i] is the byte that
    [crypto.getRandomValues] writes at index [i]; it refuses to fill more
    than 65536 bytes. *)
Definition generateSecureId (length : nat) (entropy : nat → N) : Raised string :=
  if (65536 <? N.of_nat length)%N
  then Raises (mkJsError "QuotaExceededError"
                 "The requested length exceeds 65536 bytes")
  else Gives (foldr (λ i acc, id_char (entropy i mod 256) +:+ acc) ""
                    (seq 0 length)).

(** The escaping of a text node when [innerHTML] is read. *)
Fixpoint escape_text (s : string) : string :=
  match s with
  | EmptyString => ""
  | String c rest =>
      let n := Ascii.N_of_ascii c in
      if (n =? 38)%N then "&amp;" +:+ escape_text rest
      else if (n =? 60)%N then "&lt;" +:+ escape_text rest
      else if (n =? 62)%N then "&gt;" +:+ escape_text rest
      else
        match rest with
        | String c' rest' =>
            if ((n =? 194) && (Ascii.N_of_ascii c' =? 160))%N
            then "&nbsp;" +:+ escape_text rest'
            else String c (escape_text rest)
        | EmptyString => String c ""
        end
  end.

(** [sanitizeInput(input)]: the text is stored in a fresh [div] and read
    back as markup. *)
Definition sanitizeInput (input : string) : string := escape_text input.

(** The filter of line 90. *)
Definition recent (timeWindow now : Z) (times : list Z) : list Z :=
  filter (λ time, now - time < timeWindow) times.

(** The function that [createRateLimiter(maxRequests, timeWindow)] returns,
    called with [key] at time [now]; [requests] is the map of the closure. *)
Definition createRateLimiter (maxRequests timeWindow : Z) (key : string)
    (now : Z) (requests : gmap string (list Z))
    : bool * gmap string (list Z) :=
  let userRequests := default [] (requests !! key) in
  let validRequests := recent timeWindow now userRequests in
  if bool_decide (maxRequests ≤ Z.of_nat (length validRequests))
  then (false, requests)
  else (true, <[key := validRequests ++ [now]]> requests).

(** [apiRateLimiter]. *)
Definition apiRateLimiter := createRateLimiter 100 60000.

(** A sequence of calls of one limiter: the answers and the map at the
    end. *)
Fixpoint serve (maxRequests timeWindow : Z) (calls : list (string * Z))
    (requests : gmap string (list Z)) : list bool * gmap string (list Z) :=
  match calls with
  | [] => ([], requests)
  | (key, now) :: rest =>
      let '(ok, requests) :=
        createRateLimiter maxRequests timeWindow key now requests in
      let '(oks, requests) := serve maxRequests timeWindow rest requests in
      (ok :: oks, requests)
  end.

(** The answers of a limiter that forgets nothing: a call is granted when
    fewer than [maxRequests] calls with its key were granted during the last
    [timeWindow] milliseconds.  [granted] holds every granted call. *)
Fixpoint granted_by_count (maxRequests timeWindow : Z)
    (calls : list (string * Z)) (granted : list (string * Z)) : list bool :=
  match calls with
  | [] => []
  | (key, now) :: rest =>
      let before :=
        filter (λ call, call.1 = key ∧ now - call.2 < timeWindow) granted in
      let ok := bool_decide (Z.of_nat (length before) < maxRequests) in
      ok :: granted_by_count maxRequests timeWindow rest
              (if ok then granted ++ [(key, now)] else granted)
  end.

(** Calls in the order of their times, none before [since]. *)
Fixpoint in_time_order (since : Z) (calls : list (string * Z)) : Prop :=
  match calls with
  | [] => True
  | (_, now) :: rest => since ≤ now ∧ in_time_order now rest
  end.

(** The value that replaces a sensitive field. *)
Definition is_stars (d : Json) : bool :=
  match d with
  | JStr s => String.eqb s "***"
  | _ => false
  end.

(** A document in which some field with a sensitive name, at any depth,
    holds something else than the three stars. *)
Fixpoint leaks (d : Json) : bool :=
  match d with
  | JObj fields =>
      existsb (λ kv, if sensitive (fst kv) then negb (is_stars (snd kv))
                     else leaks (snd kv)) fields
  | JArr items => existsb leaks items
  | _ => false
  end.

(** ** [ErrorHandler.formatErrorMessage] and [PerformanceMonitor.recordMetric] *)

(** [d?.k] on a JSON document: only an object has the properties that the
    functions below ask for. *)
Definition get_prop (k : string) (d : option Json) : option Json :=
  match d with
  | Some (JObj fields) =>
      (fix find (l : list (string * Json)) : option Json :=
         match l with
         | [] => None
         | (k', v) :: rest => if String.eqb k' k then Some v else find rest
         end) fields
  | _ => None
  end.

(** [formatErrorMessage(error)]. *)
Definition formatErrorMessage (error : Json) : Json :=
  match error with
  | JStr s => JStr s
  | _ =>
      let message := get_prop "message" (Some error) in
      if truthy message then default JNull message
      else
        let nested :=
          get_prop "message" (get_prop "data" (get_prop "response" (Some error))) in
        if truthy nested then default JNull nested
        else JStr "An unexpected error occurred"
  end.

(** [interface PerformanceMetric]; the buffer stores the value and never
    computes with it. *)
Record PerformanceMetric (V : Type) : Type := mkPerformanceMetric {
  pm_name : string;
  pm_value : V;
  pm_unit : string;
  pm_timestamp : Z
}.
Arguments mkPerformanceMetric {V} _ _ _ _.
Arguments pm_name {V} _.
Arguments pm_value {V} _.
Arguments pm_unit {V} _.
Arguments pm_timestamp {V} _.

(** [recordMetric(name, value, unit)] at time [now], on the array
    [this.metrics]. *)
Definition recordMetric {V : Type} (metric_name : string) (value : V)
    (unit : string) (now : Z) (metrics : list (PerformanceMetric V))
    : list (PerformanceMetric V) :=
  let metrics := metrics ++ [mkPerformanceMetric metric_name value unit now] in
  if (1000 <? length metrics)%nat
  then drop (length metrics - 1000) metrics
  else metrics.

(** A run of [recordMetric] calls, one for each metric of [ms]. *)
Definition record_all {V : Type} (ms : list (PerformanceMetric V))
    (metrics : list (PerformanceMetric V)) : list (PerformanceMetric V) :=
  foldl (λ acc m, recordMetric (pm_name m) (pm_value m) (pm_unit m)
                               (pm_timestamp m) acc) metrics ms.

(** ** More sample inputs *)

Module Cases.

(** [new ApiClient({ baseURL, retries: -1 })]. *)
Definition cfg_no_attempt : Config :=
  constructor (mkApiConfig "https://api.example" None (Some (-1)) None).


(** Thirty-two letters and digits. *)
Definition body32 : string := "abcdefghijklmnopqrstuvwxyz012345".

Definition openai_key : string := "sk-" +:+ body32.
Definition anthropic_key : string := "sk-ant-" +:+ body32.

(** Calls of a limiter of two requests per second. *)
Definition burst : list (string * Z) :=
  [("a", 0); ("a", 10); ("a", 20); ("b", 20); ("a", 999); ("a", 1000);
   ("a", 1009); ("a", 1010)].

Definition json_headers : RequestInit :=
  mkRequestInit (Some "POST") (Some "{}")
    [("Accept", "text/plain"); ("Content-Type", "text/plain");
     ("Content-Type", "application/xml")].

(** An error as a server sends it. *)
Definition server_error : Json :=
  JObj [("message", JStr "Boom");
        ("response", JObj [("data", JObj [("message", JStr "inner")])])].

(** A world in which a timer of some other code is pending. *)
Definition w_timer : World :=
  mkWorld ∅ 1000 [] [mkTimer 7 50000000] 8 0 [].

End Cases.

(** ** One attempt *)

Section Attempt.

Variable config : Config.
Variable net : nat → FetchBehaviour.

Implicit Types (w : World) (options : RequestInit) (e : JsError).

(** The [try] block throws exactly the error that [failure] reads off the
    behaviour of this invocation of [fetch]. *)
Lemma attempt_try_throws fullUrl options useCache cacheTTL cacheKey w e :
  failure config (net (fetches w)) = Some e →
  (attempt_try config net fullUrl options useCache cacheTTL cacheKey w).1 = Throw e.
Proof.
  unfold attempt_try, failure, aborted; simpl.
  destruct (net (fetches w)) as [latency r|latency msg|]; simpl;
    repeat case_match; simpl; congruence.
Qed.

Lemma attempt_try_returns fullUrl options useCache cacheTTL cacheKey w :
  failure config (net (fetches w)) = None →
  ∃ latency r d,
    net (fetches w) = Responds latency r ∧ resp_json r = Some d ∧
    (attempt_try config net fullUrl options useCache cacheTTL cacheKey w).1
    = Return {| data := d; status := resp_status r;
                statusText := resp_statusText r; headers := resp_headers r |}.
Proof.
  unfold attempt_try, failure, aborted; simpl.
  destruct (net (fetches w)) as [latency r|latency msg|]; simpl;
    repeat case_match; simpl; try congruence.
  all: intros _; eexists _, _, _; eauto.
Qed.

Lemma attempt_try_fetches fullUrl options useCache cacheTTL cacheKey w :
  fetches (attempt_try config net fullUrl options useCache cacheTTL cacheKey w).2
  = S (fetches w).
Proof.
  unfold attempt_try, aborted; simpl.
  destruct (net (fetches w)); simpl; repeat case_match; reflexivity.
Qed.

Lemma attempt_try_trace fullUrl options useCache cacheTTL cacheKey w :
  trace (attempt_try config net fullUrl options useCache cacheTTL cacheKey w).2
  = trace w ++ [EvFetch fullUrl (fetch_init options)].
Proof.
  unfold attempt_try, aborted; simpl.
  destruct (net (fetches w)); simpl; repeat case_match; reflexivity.
Qed.

Lemma attempt_try_errorLog fullUrl options useCache cacheTTL cacheKey w :
  errorLog (attempt_try config net fullUrl options useCache cacheTTL cacheKey w).2
  = errorLog w.
Proof.
  unfold attempt_try, aborted; simpl.
  destruct (net (fetches w)); simpl; repeat case_match; reflexivity.
Qed.

(** The only write to the cache is the [setCache] of line 214. *)
Lemma attempt_try_cache fullUrl options useCache cacheTTL cacheKey w :
  let a := attempt_try config net fullUrl options useCache cacheTTL cacheKey w in
  cache a.2 = cache w ∨
  (useCache = true ∧ method_is_GET options = true ∧
   ∃ r, a.1 = Return r ∧
        cache a.2 = <[cacheKey := mkCacheEntry (data r) (now a.2) cacheTTL]> (cache w)).
Proof.
  unfold attempt_try, aborted; simpl.
  destruct (net (fetches w)) as [latency r|latency msg|]; simpl;
    repeat case_match; simpl; auto.
  right.
  match goal with H : _ && _ = true |- _ => apply andb_true_iff in H as [-> ->] end.
  repeat split; eauto.
Qed.

Lemma attempt_try_throw_cache fullUrl options useCache cacheTTL cacheKey w e :
  (attempt_try config net fullUrl options useCache cacheTTL cacheKey w).1 = Throw e →
  cache (attempt_try config net fullUrl options useCache cacheTTL cacheKey w).2
  = cache w.
Proof.
  intros H.
  destruct (attempt_try_cache fullUrl options useCache cacheTTL cacheKey w)
    as [?|(_ & _ & r & Hr & _)]; [done|].
  rewrite H in Hr. discriminate.
Qed.

Lemma attempt_catch_cache fullUrl attempt e w :
  cache (attempt_catch config fullUrl attempt e w) = cache w.
Proof.
  unfold attempt_catch, delay, logError. repeat case_match; reflexivity.
Qed.

Lemma attempt_catch_fetches fullUrl attempt e w :
  fetches (attempt_catch config fullUrl attempt e w) = fetches w.
Proof.
  unfold attempt_catch, delay, logError. repeat case_match; reflexivity.
Qed.

Lemma attempt_catch_errorLog fullUrl attempt e w :
  errorLog (attempt_catch config fullUrl attempt e w)
  = errorLog w ++ [mkAppError (report_code e) (report_message fullUrl e)
                              (report_details attempt e) (now w)].
Proof.
  unfold attempt_catch, delay, logError, report_code, report_message,
    report_details.
  repeat case_match; reflexivity.
Qed.

(** The report is printed first; the wait, if there is one, follows. *)
Lemma attempt_catch_trace fullUrl attempt e w :
  trace (attempt_catch config fullUrl attempt e w)
  = trace w ++ [EvConsoleError (report_code e) (report_message fullUrl e)]
    ++ (if bool_decide (attempt < cfg_retries config)
        then [EvSleep (cfg_retryDelay config * 2 ^ attempt)] else []).
Proof.
  unfold attempt_catch, delay, logError, report_code, report_message.
  repeat case_match; simpl; rewrite <- ?app_assoc; try reflexivity.
  all: by rewrite app_nil_r.
Qed.

End Attempt.

(** ** The retry loop *)

Section Loop.

Variable config : Config.
Variable net : nat → FetchBehaviour.

Implicit Types (w : World) (options : RequestInit) (e : JsError).

Local Abbreviation attempts := (attempts config net).
Local Abbreviation attempt_try := (attempt_try config net).
Local Abbreviation attempt_catch := (attempt_catch config).

(** A run of [n] failing invocations of [fetch] takes the loop through its
    first [n] iterations; this is the world in which the rest of the loop
    starts. *)
Lemma attempts_failures fullUrl options useCache cacheTTL cacheKey n :
  ∀ attempt lastError w m,
    0 ≤ m →
    (∀ j, (j < n)%nat → is_Some (failure config (net (fetches w + j)%nat))) →
    ∃ w1,
      attempts fullUrl options useCache cacheTTL cacheKey
               (seqZ attempt (Z.of_nat n + m)) lastError w
      = attempts fullUrl options useCache cacheTTL cacheKey
                 (seqZ (attempt + Z.of_nat n) m)
                 (match n with
                  | O => lastError
                  | S n' => Some (thrown config net (fetches w + n')%nat)
                  end) w1
      ∧ fetches w1 = (fetches w + n)%nat
      ∧ cache w1 = cache w
      ∧ trace w1 = trace w ++ failed_events config net fullUrl options n attempt (fetches w)
      ∧ reports (errorLog w1)
        = reports (errorLog w) ++ failed_reports config net fullUrl n attempt (fetches w).
Proof.
  induction n as [|n IH]; intros attempt lastError w m Hm Hfail.
  - exists w. simpl. rewrite Z.add_0_r, Nat.add_0_r, !app_nil_r. done.
  - destruct (Hfail O ltac:(lia)) as [e He].
    rewrite Nat.add_0_r in He.
    rewrite seqZ_cons by lia. simpl attempts.
    pose proof (attempt_try_throws config net fullUrl options useCache
                  cacheTTL cacheKey w e He) as Hthrow.
    pose proof (attempt_try_fetches config net fullUrl options useCache
                  cacheTTL cacheKey w) as Hf.
    pose proof (attempt_try_trace config net fullUrl options useCache
                  cacheTTL cacheKey w) as Ht.
    pose proof (attempt_try_errorLog config net fullUrl options useCache
                  cacheTTL cacheKey w) as Hl.
    pose proof (attempt_try_throw_cache config net fullUrl options useCache
                  cacheTTL cacheKey w e Hthrow) as Hc.
    destruct (attempt_try fullUrl options useCache cacheTTL cacheKey w)
      as [c w'] eqn:Hatt.
    simpl in Hthrow, Hf, Ht, Hl, Hc. subst c.
    set (w'' := attempt_catch fullUrl attempt e w').
    assert (Hf'' : fetches w'' = S (fetches w)).
    { unfold w''. by rewrite attempt_catch_fetches. }
    destruct (IH (attempt + 1) (Some e) w'' m Hm) as (w1 & Heq & Hf1 & Hc1 & Ht1 & Hl1).
    { intros j Hj. rewrite Hf''.
      replace (S (fetches w) + j)%nat with (fetches w + S j)%nat by lia.
      apply Hfail. lia. }
    exists w1.
    assert (Hthrown : thrown config net (fetches w) = e).
    { unfold thrown. by rewrite He. }
    split; [|split; [|split; [|split]]].
    + replace (Z.pred (Z.of_nat (S n) + m)) with (Z.of_nat n + m) by lia.
      replace (Z.succ attempt) with (attempt + 1) by lia.
      rewrite Heq.
      replace (attempt + 1 + Z.of_nat n) with (attempt + Z.of_nat (S n)) by lia.
      f_equal. destruct n as [|n'].
      * by rewrite Nat.add_0_r, Hthrown.
      * rewrite Hf''. do 2 f_equal. lia.
    + rewrite Hf1, Hf''. lia.
    + rewrite Hc1. unfold w''. by rewrite attempt_catch_cache.
    + rewrite Ht1, Hf''. unfold w''.
      rewrite attempt_catch_trace, Ht. simpl failed_events.
      rewrite Hthrown. unfold failed_iteration.
      rewrite <- !app_assoc. reflexivity.
    + rewrite Hl1, Hf''. unfold w''.
      rewrite attempt_catch_errorLog, Hl. simpl failed_reports.
      rewrite Hthrown. unfold reports.
      rewrite map_app, <- app_assoc. reflexivity.
Qed.


(** The cache after the loop: untouched, or one [setCache] of the returned
    data by a cacheable GET. *)
Lemma attempts_cache fullUrl options useCache cacheTTL cacheKey indices :
  ∀ lastError w,
    let res := attempts fullUrl options useCache cacheTTL cacheKey
                        indices lastError w in
    cache res.2 = cache w ∨
    (useCache = true ∧ method_is_GET options = true ∧
     ∃ r, res.1 = Resolved r ∧
          cache res.2 = <[cacheKey := mkCacheEntry (data r) (now res.2) cacheTTL]> (cache w)).
Proof.
  induction indices as [|attempt rest IH]; intros lastError w; simpl.
  - by left.
  - pose proof (attempt_try_cache config net fullUrl options useCache
                  cacheTTL cacheKey w) as Hc.
    pose proof (attempt_try_throw_cache config net fullUrl options useCache
                  cacheTTL cacheKey w) as Hthrow.
    destruct (attempt_try fullUrl options useCache cacheTTL cacheKey w)
      as [[r|e] w'] eqn:Hatt; simpl in Hc, Hthrow.
    + destruct Hc as [Hc|(Hu & Hg & r' & Hr & Hc)]; [by left|].
      right. simplify_eq. repeat split; try done. by exists r'.
    + specialize (IH (Some e) (attempt_catch fullUrl attempt e w')).
      simpl in IH. rewrite attempt_catch_cache, (Hthrow e eq_refl) in IH.
      exact IH.
Qed.

(** A failed call leaves the cache as it was. *)
Lemma attempts_rejected_cache fullUrl options useCache cacheTTL cacheKey
    indices lastError w e :
  (attempts fullUrl options useCache cacheTTL cacheKey indices lastError w).1
  = Rejected e →
  cache (attempts fullUrl options useCache cacheTTL cacheKey indices lastError w).2
  = cache w.
Proof.
  intros H.
  destruct (attempts_cache fullUrl options useCache cacheTTL cacheKey
              indices lastError w) as [?|(_ & _ & r & Hr & _)]; [done|].
  rewrite H in Hr. discriminate.
Qed.

(** Every invocation of [fetch] that did not produce the returned response
    has one report in the error log. *)
Lemma attempts_reported fullUrl options useCache cacheTTL cacheKey indices :
  ∀ lastError w,
    let res := attempts fullUrl options useCache cacheTTL cacheKey
                        indices lastError w in
    (length (errorLog res.2) + (if res.1 is Resolved _ then 1 else 0) + fetches w
     = length (errorLog w) + fetches res.2)%nat.
Proof.
  induction indices as [|attempt rest IH]; intros lastError w; simpl.
  - lia.
  - pose proof (attempt_try_fetches config net fullUrl options useCache
                  cacheTTL cacheKey w) as Hf.
    pose proof (attempt_try_errorLog config net fullUrl options useCache
                  cacheTTL cacheKey w) as Hl.
    destruct (attempt_try fullUrl options useCache cacheTTL cacheKey w)
      as [[r|e] w'] eqn:Hatt; simpl in Hf, Hl; simpl.
    + rewrite Hf, Hl. lia.
    + specialize (IH (Some e) (attempt_catch fullUrl attempt e w')).
      simpl in IH.
      rewrite attempt_catch_fetches, attempt_catch_errorLog, length_app in IH.
      simpl in IH. rewrite Hf, Hl in IH. lia.
Qed.

End Loop.

(** ** The response cache *)

Section Cache.

Variable config : Config.
Variable net : nat → FetchBehaviour.

Implicit Types (w : World) (options : RequestInit).

(** The guard of line 178, spelled out. *)
Lemma cache_hit_live url options useCache w :
  cache_hit config url options useCache w = true ↔
  useCache = true ∧ method_is_GET options = true ∧
  ∃ cached, cache w !! getCacheKey (resolve config url) options = Some cached
            ∧ now w - ce_timestamp cached < ce_ttl cached.
Proof.
  unfold cache_hit, isCacheValid.
  rewrite !andb_true_iff.
  destruct (cache w !! getCacheKey (resolve config url) options) as [cached|].
  - rewrite bool_decide_eq_true. split.
    + intros [[Hu Hg] Hl]. eauto 6.
    + intros (Hu & Hg & c & Hc & Hl). by simplify_eq.
  - split.
    + intros [_ ?]. discriminate.
    + intros (_ & _ & c & ? & _). discriminate.
Qed.

(** C1. A cacheable GET whose key holds an entry stored less than its TTL
    ago is answered from the cache: the call resolves with the stored value
    as its data and leaves the world as it was, so that [fetch] is not
    invoked and nothing is added to the trace. *)
Theorem cache_hit_avoids_network url options cacheTTL w cached :
  method_is_GET options = true →
  cache w !! getCacheKey (resolve config url) options = Some cached →
  now w - ce_timestamp cached < ce_ttl cached →
  ∃ r, request config net url options true cacheTTL w = (Resolved r, w)
       ∧ data r = ce_data cached
       ∧ fetches (request config net url options true cacheTTL w).2 = fetches w
       ∧ trace (request config net url options true cacheTTL w).2 = trace w.
Proof.
  intros Hget Hentry Hlive.
  assert (Hhit : cache_hit config url options true w = true).
  { apply cache_hit_live. eauto 6. }
  unfold request. rewrite Hhit, Hentry. simpl. eauto.
Qed.

(** C4. An entry is live exactly when [now - storedAt < ttl]; from
    [storedAt + ttl] on, [isCacheValid] answers false and no call with that
    key is served from the cache. *)
Theorem cache_expiry key w cached :
  cache w !! key = Some cached →
  (isCacheValid key w = true ↔ now w - ce_timestamp cached < ce_ttl cached)
  ∧ (ce_timestamp cached + ce_ttl cached ≤ now w →
     isCacheValid key w = false
     ∧ ∀ url options useCache,
         getCacheKey (resolve config url) options = key →
         cache_hit config url options useCache w = false).
Proof.
  intros Hentry. unfold isCacheValid. rewrite Hentry. split.
  - apply bool_decide_eq_true.
  - intros Hlate.
    assert (Hdead : bool_decide (now w - ce_timestamp cached < ce_ttl cached) = false)
      by (apply bool_decide_eq_false; lia).
    split; [exact Hdead|].
    intros url options useCache <-.
    unfold cache_hit, isCacheValid. rewrite Hentry, Hdead.
    apply andb_false_r.
Qed.

(** An entry written by [setCache] is live for the next [ttl] milliseconds
    and for no longer. *)
Lemma setCache_live key d ttl dt w :
  isCacheValid key (advance dt (setCache key d ttl w)) = bool_decide (Z.max 0 dt < ttl).
Proof.
  unfold isCacheValid, advance, setCache; simpl.
  rewrite lookup_insert_eq. simpl.
  apply bool_decide_ext. lia.
Qed.

End Cache.

(** ** Error messages *)

Lemma pretty_N_go_digits (x : N) :
  ∀ s, all_digits s = true → all_digits (pretty_N_go x s) = true.
Proof.
  induction (N.lt_wf_0 x) as [x _ IH]; intros s Hs.
  destruct (decide (x = 0)%N) as [->|Hx].
  - by rewrite pretty_N_go_0.
  - rewrite pretty_N_go_step by lia.
    apply IH; [apply N.div_lt; lia|].
    simpl. rewrite Hs, andb_true_r.
    pose proof (N.mod_upper_bound x 10 ltac:(lia)) as Hlt.
    unfold pretty_N_char. by repeat case_match.
Qed.

Lemma pretty_N_digits (n : N) : all_digits (pretty n) = true.
Proof.
  unfold pretty, pretty_N. case_decide; [done|].
  by apply pretty_N_go_digits.
Qed.

(** A run of digits that is followed by a colon is determined by the text. *)
Lemma digits_before_colon d1 :
  ∀ d2 r1 r2,
    all_digits d1 = true → all_digits d2 = true →
    d1 +:+ ":" +:+ r1 = d2 +:+ ":" +:+ r2 → d1 = d2.
Proof.
  induction d1 as [|c1 d1 IH]; intros [|c2 d2] r1 r2 H1 H2 Heq; simpl in *.
  - done.
  - injection Heq as <- _. discriminate.
  - injection Heq as -> _. discriminate.
  - apply andb_true_iff in H1 as [_ H1]. apply andb_true_iff in H2 as [_ H2].
    injection Heq as -> Heq. f_equal. eauto.
Qed.

(** The message of an HTTP failure tells the status. *)
Lemma HttpError_status r1 r2 :
  HttpError r1 = HttpError r2 → resp_status r1 = resp_status r2.
Proof.
  unfold HttpError. intros Heq. injection Heq as Heq.
  apply (inj pretty).
  eapply digits_before_colon; [apply pretty_N_digits..|exact Heq].
Qed.

Section Errors.

Variable config : Config.

(** Each kind of failure has its own shape of error. *)
Lemma failure_shape b e :
  failure config b = Some e →
  match kind_of config b with
  | Some Timeout => name e = "AbortError"
  | Some NetworkError => name e = "TypeError"
  | Some MalformedBody => name e = "SyntaxError"
  | Some (HttpStatus code) => ∃ r, e = HttpError r ∧ resp_status r = code
  | None => False
  end.
Proof.
  unfold failure, kind_of.
  destruct b as [latency r|latency msg|]; repeat case_match;
    intros He; simplify_eq; simpl; eauto.
Qed.

(** The error that reaches the [catch] block determines the kind of the
    failure: two behaviours of [fetch] that end in the same error are
    failures of the same kind. *)
Lemma failure_kind b1 b2 e :
  failure config b1 = Some e → failure config b2 = Some e →
  kind_of config b1 = kind_of config b2.
Proof.
  intros H1 H2.
  apply failure_shape in H1, H2.
  destruct (kind_of config b1) as [[| |c1|]|], (kind_of config b2) as [[| |c2|]|];
    try done;
    repeat match goal with
           | H : ∃ r, _ ∧ _ |- _ => destruct H as (? & ? & ?)
           end;
    subst; simpl in *; try congruence.
  do 2 f_equal. apply HttpError_status. congruence.
Qed.

Lemma failure_has_kind b e :
  failure config b = Some e → is_Some (kind_of config b).
Proof.
  unfold failure, kind_of. destruct b; repeat case_match; intros; simplify_eq; eauto.
Qed.

End Errors.

(** ** Calls that go to the network *)

Section Request.

Variable config : Config.
Variable net : nat → FetchBehaviour.

Implicit Types (w : World) (options : RequestInit) (e : JsError).

(** A call that is not served from the cache is the retry loop over the
    attempt numbers [0 .. retries]. *)
Lemma request_miss url options useCache cacheTTL w :
  cache_hit config url options useCache w = false →
  request config net url options useCache cacheTTL w
  = attempts config net (resolve config url) options useCache cacheTTL
             (getCacheKey (resolve config url) options)
             (seqZ 0 (cfg_retries config + 1)) None w.
Proof. intros Hmiss. unfold request. by rewrite Hmiss. Qed.

(** The first [n] attempts of a call fail: where the call stands then. *)
Lemma request_failures url options useCache cacheTTL w (n : nat) :
  cache_hit config url options useCache w = false →
  Z.of_nat n ≤ cfg_retries config + 1 →
  (∀ j, (j < n)%nat → is_Some (failure config (net (fetches w + j)%nat))) →
  ∃ w1,
    request config net url options useCache cacheTTL w
    = attempts config net (resolve config url) options useCache cacheTTL
               (getCacheKey (resolve config url) options)
               (seqZ (Z.of_nat n) (cfg_retries config + 1 - Z.of_nat n))
               (match n with
                | O => None
                | S n' => Some (thrown config net (fetches w + n')%nat)
                end) w1
    ∧ fetches w1 = (fetches w + n)%nat
    ∧ cache w1 = cache w
    ∧ trace w1 = trace w ++ failed_events config net (resolve config url) options
                                          n 0 (fetches w)
    ∧ reports (errorLog w1)
      = reports (errorLog w) ++ failed_reports config net (resolve config url)
                                               n 0 (fetches w).
Proof.
  intros Hmiss Hn Hfail.
  rewrite request_miss by done.
  destruct (attempts_failures config net (resolve config url) options useCache
              cacheTTL (getCacheKey (resolve config url) options) n 0 None w
              (cfg_retries config + 1 - Z.of_nat n)) as (w1 & Heq & Hrest);
    [lia|done|].
  replace (Z.of_nat n + (cfg_retries config + 1 - Z.of_nat n))
    with (cfg_retries config + 1) in Heq by lia.
  rewrite Z.add_0_l in Heq. eauto.
Qed.

(** Every attempt fails: the call makes [retries + 1] attempts and rejects
    with the error of the last one. *)
Lemma request_exhausted url options useCache cacheTTL w :
  0 ≤ cfg_retries config →
  cache_hit config url options useCache w = false →
  (∀ j, Z.of_nat j ≤ cfg_retries config →
        is_Some (failure config (net (fetches w + j)%nat))) →
  ∃ w',
    request config net url options useCache cacheTTL w
    = (Rejected (thrown config net (fetches w + Z.to_nat (cfg_retries config))%nat), w')
    ∧ fetches w' = (fetches w + S (Z.to_nat (cfg_retries config)))%nat
    ∧ cache w' = cache w.
Proof.
  intros Hretries Hmiss Hfail.
  destruct (request_failures url options useCache cacheTTL w
              (S (Z.to_nat (cfg_retries config))) Hmiss)
    as (w' & Heq & Hf & Hc & _); [lia| |].
  { intros j Hj. apply Hfail. lia. }
  exists w'. rewrite Heq, seqZ_nil by lia. done.
Qed.

(** C2. With [retries = N ≥ 0] and a transport on which every attempt
    fails, a call that goes to the network invokes [fetch] exactly [N + 1]
    times and is then rejected. *)
Theorem retry_exhaustion_count url options useCache cacheTTL w :
  0 ≤ cfg_retries config →
  cache_hit config url options useCache w = false →
  (∀ k, is_Some (failure config (net k))) →
  ∃ e w',
    request config net url options useCache cacheTTL w = (Rejected e, w')
    ∧ Z.of_nat (fetches w') = Z.of_nat (fetches w) + (cfg_retries config + 1).
Proof.
  intros Hretries Hmiss Hfail.
  destruct (request_exhausted url options useCache cacheTTL w Hretries Hmiss)
    as (w' & Heq & Hf & _); [by intros|].
  eexists _, w'. split; [exact Heq|]. rewrite Hf. lia.
Qed.

(** C8. When every attempt has failed, the error that the call rejects with
    is the error thrown by the last attempt, the one numbered [retries].
    That error tells the kind of the failure: any behaviour of [fetch] that
    ends in the same error is a failure of the same kind, so a timeout, a
    network failure and an HTTP failure of a given status reach the caller
    as different errors. *)
Theorem exhausted_error_is_last_failure url options useCache cacheTTL w :
  0 ≤ cfg_retries config →
  cache_hit config url options useCache w = false →
  (∀ j, Z.of_nat j ≤ cfg_retries config →
        is_Some (failure config (net (fetches w + j)%nat))) →
  let last := net (fetches w + Z.to_nat (cfg_retries config))%nat in
  ∃ e kind,
    (request config net url options useCache cacheTTL w).1 = Rejected e
    ∧ failure config last = Some e
    ∧ kind_of config last = Some kind
    ∧ ∀ b, failure config b = Some e → kind_of config b = Some kind.
Proof.
  intros Hretries Hmiss Hfail last.
  destruct (request_exhausted url options useCache cacheTTL w Hretries Hmiss Hfail)
    as (w' & Heq & _).
  destruct (Hfail (Z.to_nat (cfg_retries config)) ltac:(lia)) as [e He].
  fold last in He.
  destruct (failure_has_kind config last e He) as [kind Hkind].
  exists e, kind. rewrite Heq. unfold thrown. fold last. rewrite He.
  repeat split; try done.
  intros b Hb. rewrite <- Hkind. by eapply failure_kind.
Qed.

(** An attempt that succeeds ends the loop. *)
Lemma attempts_returns fullUrl options useCache cacheTTL cacheKey
    attempt rest lastError w :
  failure config (net (fetches w)) = None →
  ∃ latency r d w',
    net (fetches w) = Responds latency r ∧ resp_json r = Some d
    ∧ attempts config net fullUrl options useCache cacheTTL cacheKey
               (attempt :: rest) lastError w
      = (Resolved {| data := d; status := resp_status r;
                     statusText := resp_statusText r;
                     headers := resp_headers r |}, w')
    ∧ trace w' = trace w ++ [EvFetch fullUrl (fetch_init options)]
    ∧ errorLog w' = errorLog w
    ∧ fetches w' = S (fetches w).
Proof.
  intros Hok. simpl.
  destruct (attempt_try_returns config net fullUrl options useCache cacheTTL
              cacheKey w Hok) as (latency & r & d & Hnet & Hjson & Hret).
  pose proof (attempt_try_trace config net fullUrl options useCache
                cacheTTL cacheKey w) as Ht.
  pose proof (attempt_try_errorLog config net fullUrl options useCache
                cacheTTL cacheKey w) as Hl.
  pose proof (attempt_try_fetches config net fullUrl options useCache
                cacheTTL cacheKey w) as Hf.
  destruct (attempt_try config net fullUrl options useCache cacheTTL cacheKey w)
    as [c w'].
  simpl in *. subst c. eauto 10.
Qed.








(** C7. A call that goes to the network leaves one report in the error log
    for every invocation of [fetch] that failed, the last one included,
    which is not retried.  When the first two attempts fail and the third
    succeeds, with [retries ≥ 2], the call resolves with the decoded body
    of the third response, the log has gained the two reports, for the
    attempts 0 and 1, and each report was printed before the wait that
    follows it. *)
Theorem failures_reported_before_retry url options useCache cacheTTL w :
  cache_hit config url options useCache w = false →
  (let res := request config net url options useCache cacheTTL w in
   (length (errorLog res.2) + (if res.1 is Resolved _ then 1 else 0) + fetches w
    = length (errorLog w) + fetches res.2)%nat)
  ∧ (2 ≤ cfg_retries config →
     is_Some (failure config (net (fetches w))) →
     is_Some (failure config (net (fetches w + 1)%nat)) →
     failure config (net (fetches w + 2)%nat) = None →
     let fullUrl := resolve config url in
     let e0 := thrown config net (fetches w) in
     let e1 := thrown config net (fetches w + 1)%nat in
     ∃ latency r d w',
       net (fetches w + 2)%nat = Responds latency r ∧ resp_json r = Some d
       ∧ request config net url options useCache cacheTTL w
         = (Resolved {| data := d; status := resp_status r;
                        statusText := resp_statusText r;
                        headers := resp_headers r |}, w')
       ∧ reports (errorLog w')
         = reports (errorLog w)
           ++ [(report_code e0, report_message fullUrl e0, report_details 0 e0);
               (report_code e1, report_message fullUrl e1, report_details 1 e1)]
       ∧ trace w'
         = trace w
           ++ [EvFetch fullUrl (fetch_init options);
               EvConsoleError (report_code e0) (report_message fullUrl e0);
               EvSleep (cfg_retryDelay config * 2 ^ 0);
               EvFetch fullUrl (fetch_init options);
               EvConsoleError (report_code e1) (report_message fullUrl e1);
               EvSleep (cfg_retryDelay config * 2 ^ 1);
               EvFetch fullUrl (fetch_init options)]).
Proof.
  intros Hmiss. split.
  - rewrite request_miss by done. apply attempts_reported.
  - intros Hretries Hf0 Hf1 Hok fullUrl e0 e1.
    destruct (request_failures url options useCache cacheTTL w 2 Hmiss)
      as (w1 & Heq & Hfetches & _ & Ht1 & Hl1); [lia| |].
    { intros [|[|j]] Hj; [by rewrite Nat.add_0_r|done|lia]. }
    rewrite seqZ_cons in Heq by lia.
    rewrite <- Hfetches in Hok.
    destruct (attempts_returns (resolve config url) options useCache cacheTTL
                (getCacheKey (resolve config url) options) (Z.of_nat 2)
                (seqZ (Z.succ (Z.of_nat 2)) (Z.pred (cfg_retries config + 1 - Z.of_nat 2)))
                (Some (thrown config net (fetches w + 1)%nat)) w1 Hok)
      as (latency & r & d & w' & Hnet & Hjson & Hres & Ht & Hl & _).
    rewrite Hfetches in Hnet.
    exists latency, r, d, w'.
    split; [done|]. split; [done|]. split; [by rewrite Heq|].
    split.
    + rewrite Hl, Hl1. subst e0 e1 fullUrl. simpl. by rewrite Nat.add_1_r.
    + rewrite Ht, Ht1. subst e0 e1 fullUrl. simpl. unfold failed_iteration.
      rewrite !bool_decide_eq_true_2 by lia.
      rewrite <- !app_assoc. simpl. by rewrite Nat.add_1_r.
Qed.

End Request.

(** ** Frame of the cache, classification of timeouts, cached responses *)

Section Frame.

Variable config : Config.
Variable net : nat → FetchBehaviour.

Implicit Types (w : World) (options : RequestInit) (e : JsError).

(** The cache after a call. *)
Lemma request_cache url options useCache cacheTTL w :
  let res := request config net url options useCache cacheTTL w in
  cache res.2 = cache w ∨
  (useCache = true ∧ method_is_GET options = true ∧
   ∃ r, res.1 = Resolved r ∧
        cache res.2
        = <[getCacheKey (resolve config url) options
            := mkCacheEntry (data r) (now res.2) cacheTTL]> (cache w)).
Proof.
  unfold request.
  destruct (cache_hit config url options useCache w).
  - left. by case_match.
  - apply attempts_cache.
Qed.

(** C6. The only write to the cache in a call is the [setCache] that follows
    a successful attempt of a call with [useCache] set and method GET, and
    it stores the data that the call resolves with.  A call without
    [useCache] or with another method, a call that is rejected, and every
    [post], [put] and [delete] leave the cache map as it was. *)
Theorem cache_only_after_cacheable_success url options useCache cacheTTL w :
  let res := request config net url options useCache cacheTTL w in
  (cache res.2 = cache w ∨
   (useCache = true ∧ method_is_GET options = true ∧
    ∃ r, res.1 = Resolved r ∧
         cache res.2
         = <[getCacheKey (resolve config url) options
             := mkCacheEntry (data r) (now res.2) cacheTTL]> (cache w)))
  ∧ (useCache = false ∨ method_is_GET options = false → cache res.2 = cache w)
  ∧ (∀ e, res.1 = Rejected e → cache res.2 = cache w)
  ∧ (∀ d, cache (post config net url d w).2 = cache w)
  ∧ (∀ d, cache (put config net url d w).2 = cache w)
  ∧ cache (delete config net url w).2 = cache w.
Proof.
  intros res.
  pose proof (request_cache url options useCache cacheTTL w) as Hc.
  fold res in Hc. simpl in Hc.
  split; [exact Hc|]. split; [|split; [|split; [|split]]].
  - intros Hnot. destruct Hc as [?|(Hu & Hg & _)]; [done|].
    destruct Hnot; congruence.
  - intros e He. destruct Hc as [?|(_ & _ & r & Hr & _)]; [done|].
    congruence.
  - intros d. unfold post.
    destruct (request_cache url (mkRequestInit (Some "POST") (body_of d) [])
                false default_cacheTTL w) as [?|(? & _)]; [done|discriminate].
  - intros d. unfold put.
    destruct (request_cache url (mkRequestInit (Some "PUT") (body_of d) [])
                false default_cacheTTL w) as [?|(? & _)]; [done|discriminate].
  - unfold delete.
    destruct (request_cache url (mkRequestInit (Some "DELETE") None [])
                false default_cacheTTL w) as [?|(? & _)]; [done|discriminate].
Qed.

(** C9. An attempt whose [fetch] has not settled when the deadline elapses
    throws the [AbortError] of the aborted controller; its failure is of
    kind [Timeout], and the [catch] block reports it as [API_TIMEOUT], not
    as [API_ERROR]. *)
Theorem timeout_classification fullUrl options useCache cacheTTL cacheKey
    attempt w :
  settles_in_time config (net (fetches w)) = false →
  let a := attempt_try config net fullUrl options useCache cacheTTL cacheKey w in
  a.1 = Throw AbortError
  ∧ kind_of config (net (fetches w)) = Some Timeout
  ∧ reports (errorLog (attempt_catch config fullUrl attempt AbortError a.2))
    = reports (errorLog w)
      ++ [("API_TIMEOUT", "Request timeout: " +:+ fullUrl,
           {| d_attempt := attempt; d_error := None |})].
Proof.
  intros Hlate a.
  assert (Hfail : failure config (net (fetches w)) = Some AbortError
                  ∧ kind_of config (net (fetches w)) = Some Timeout).
  { unfold settles_in_time, failure, kind_of in *.
    destruct (net (fetches w)); by rewrite ?Hlate. }
  destruct Hfail as [Hfail Hkind].
  split; [by apply attempt_try_throws|]. split; [done|].
  rewrite attempt_catch_errorLog. unfold a.
  rewrite attempt_try_errorLog. unfold reports. by rewrite map_app.
Qed.

(** C10. A call that is served from the cache resolves with status 200,
    status text [OK (Cached)] and an empty header list, whatever the status,
    status text and headers of the response that was stored: only the data
    is the stored value.  A [get] that fetched a response and a second [get]
    of the same URL less than five minutes later show the difference. *)
Theorem cached_response_shape url w :
  (∀ options useCache cacheTTL,
     cache_hit config url options useCache w = true →
     ∃ cached,
       cache w !! getCacheKey (resolve config url) options = Some cached
       ∧ request config net url options useCache cacheTTL w
         = (Resolved {| data := ce_data cached; status := 200%N;
                        statusText := "OK (Cached)"; headers := [] |}, w))
  ∧ (∀ latency r d dt,
       0 ≤ cfg_retries config →
       cache_hit config url (mkRequestInit (Some "GET") None []) true w = false →
       net (fetches w) = Responds latency r →
       in_time config latency = true →
       resp_ok r = true →
       resp_json r = Some d →
       0 ≤ dt < default_cacheTTL →
       ∃ w1,
         get config net url true w
         = (Resolved {| data := d; status := resp_status r;
                        statusText := resp_statusText r;
                        headers := resp_headers r |}, w1)
         ∧ get config net url true (advance dt w1)
           = (Resolved {| data := d; status := 200%N;
                          statusText := "OK (Cached)"; headers := [] |},
              advance dt w1)).
Proof.
  split.
  - intros options useCache cacheTTL Hhit.
    pose proof Hhit as Hlive.
    apply cache_hit_live in Hlive as (_ & _ & cached & Hentry & _).
    exists cached. split; [done|].
    unfold request. by rewrite Hhit, Hentry.
  - intros latency r d dt Hretries Hmiss Hnet Htime Hok Hjson Hdt.
    unfold get. rewrite request_miss by done.
    rewrite seqZ_cons by lia. simpl attempts.
    unfold attempt_try. simpl. rewrite Hnet, Htime, Hok, Hjson. simpl.
    eexists. split; [reflexivity|].
    unfold request.
    match goal with
    | |- context [cache_hit _ _ _ _ ?w1] =>
        assert (Hhit : cache_hit config url (mkRequestInit (Some "GET") None [])
                         true w1 = true)
    end.
    { apply cache_hit_live. split; [done|]. split; [done|].
      eexists. split.
      - simpl. apply lookup_insert_eq.
      - simpl. unfold default_cacheTTL in *. lia. }
    rewrite Hhit. simpl. rewrite lookup_insert_eq. reflexivity.
Qed.

End Frame.

(** ** The deadline timer *)

Section Deadline.

Variable config : Config.
Variable net : nat → FetchBehaviour.

(** When [fetch] resolves, [clearTimeout] removes the timer of the attempt;
    when the deadline elapses, the timer has fired.  In both cases no timer
    of the attempt is pending when the [try] block is left. *)
Lemma deadline_timer_cleared fullUrl options useCache cacheTTL cacheKey w :
  Forall (λ tm, (timer_id tm < nextTimer w)%nat) (timers w) →
  (∀ latency msg, net (fetches w) = NetworkFails latency msg →
                  in_time config latency = false) →
  Forall (λ tm, timer_id tm ≠ nextTimer w)
         (timers (attempt_try config net fullUrl options useCache cacheTTL cacheKey w).2).
Proof.
  intros Hwf Hnet.
  assert (Hfired : ∀ ts dt,
    Forall (λ tm, (timer_id tm < nextTimer w)%nat) ts →
    Forall (λ tm, timer_id tm ≠ nextTimer w)
      (filter (λ tm, now w + Z.max 0 dt < fires_at tm)
              (ts ++ [mkTimer (nextTimer w) (now w + Z.max 0 dt)]))).
  { intros ts dt Hts. rewrite filter_app. apply Forall_app. split.
    - apply Forall_forall. intros tm Htm.
      apply list_elem_of_filter in Htm as [_ Htm].
      rewrite Forall_forall in Hts. specialize (Hts tm Htm). lia.
    - rewrite filter_cons_False by (simpl; lia). by rewrite filter_nil. }
  unfold attempt_try, aborted; simpl.
  destruct (net (fetches w)) as [latency r|latency msg|] eqn:Hb; simpl.
  - destruct (in_time config latency); simpl.
    + assert (Hclear : ∀ ts, Forall (λ tm, timer_id tm ≠ nextTimer w)
                (filter (λ tm, timer_id tm ≠ nextTimer w) ts)).
      { intros ts. apply Forall_forall. intros tm Htm.
        by apply list_elem_of_filter in Htm as [? _]. }
      repeat case_match; simpl; apply Hclear.
    + by apply Hfired.
  - rewrite (Hnet latency msg eq_refl). simpl. by apply Hfired.
  - by apply Hfired.
Qed.

(** When [fetch] rejects before the deadline, control goes to the [catch]
    block, which does not clear the timer: it stays pending. *)
Lemma deadline_timer_pending fullUrl options useCache cacheTTL cacheKey w
    latency msg :
  net (fetches w) = NetworkFails latency msg →
  in_time config latency = true →
  mkTimer (nextTimer w) (now w + Z.max 0 (cfg_timeout config))
  ∈ timers (attempt_try config net fullUrl options useCache cacheTTL cacheKey w).2.
Proof.
  intros Hnet Htime.
  unfold attempt_try; simpl. rewrite Hnet, Htime. simpl.
  apply list_elem_of_filter. split.
  - simpl. unfold in_time in Htime. apply bool_decide_eq_true in Htime. lia.
  - apply elem_of_app. right. apply list_elem_of_singleton. done.
Qed.

End Deadline.

(** C5, at a failing input.  The network is down and [fetch] rejects after
    10 ms, long before the deadline of 30 s.  The attempt ends with the
    [TypeError] at time 1010 and its deadline timer is still pending; when
    the call is rejected after its three attempts, at time 4030, the three
    deadline timers are pending. *)
Theorem deadline_timer_left_pending :
  let a := attempt_try Sample.cfg Sample.offline "https://api.example/x"
             Sample.get_x false 300000 "GET:https://api.example/x:" Sample.w0 in
  let res := get Sample.cfg Sample.offline "/x" false Sample.w0 in
  a.1 = Throw (TypeError "Failed to fetch")
  ∧ now a.2 = 1010
  ∧ timers a.2 = [mkTimer 0 31000]
  ∧ res.1 = Rejected (TypeError "Failed to fetch")
  ∧ now res.2 = 4030
  ∧ timers res.2 = [mkTimer 0 31000; mkTimer 1 32010; mkTimer 2 34020].
Proof. vm_compute. done. Qed.

(** ** The theorems at the sample inputs *)

Lemma cache_hit_avoids_network_witness :
  method_is_GET Sample.get_x = true
  ∧ now Sample.w_cached - ce_timestamp Sample.entry < ce_ttl Sample.entry
  ∧ ∃ r, request Sample.cfg Sample.offline "/x" Sample.get_x true 300000
                 Sample.w_cached
         = (Resolved r, Sample.w_cached)
         ∧ data r = JNum 7
         ∧ fetches (request Sample.cfg Sample.offline "/x" Sample.get_x true
                            300000 Sample.w_cached).2 = O
         ∧ trace (request Sample.cfg Sample.offline "/x" Sample.get_x true
                          300000 Sample.w_cached).2 = [].
Proof.
  split; [reflexivity|]. split; [reflexivity|].
  apply (cache_hit_avoids_network Sample.cfg Sample.offline "/x" Sample.get_x
           300000 Sample.w_cached Sample.entry); reflexivity.
Defined.

Lemma retry_exhaustion_count_witness :
  0 ≤ cfg_retries Sample.cfg
  ∧ ∃ e w',
      request Sample.cfg Sample.offline "/x" Sample.get_x true 300000 Sample.w0
      = (Rejected e, w')
      ∧ Z.of_nat (fetches w') = Z.of_nat (fetches Sample.w0) + (2 + 1).
Proof.
  split; [discriminate|].
  apply (retry_exhaustion_count Sample.cfg Sample.offline "/x" Sample.get_x
           true 300000 Sample.w0).
  - discriminate.
  - reflexivity.
  - intros k. eexists. reflexivity.
Defined.



Lemma cache_expiry_witness :
  (isCacheValid "GET:https://api.example/x:" (advance 300000 Sample.w_cached) = true
   ↔ 301000 - 1000 < 300000)
  ∧ (1000 + 300000 ≤ 301000 →
     isCacheValid "GET:https://api.example/x:" (advance 300000 Sample.w_cached) = false
     ∧ ∀ url options useCache,
         getCacheKey (resolve Sample.cfg url) options = "GET:https://api.example/x:" →
         cache_hit Sample.cfg url options useCache (advance 300000 Sample.w_cached)
         = false).
Proof.
  apply (cache_expiry Sample.cfg "GET:https://api.example/x:"
           (advance 300000 Sample.w_cached) Sample.entry).
  reflexivity.
Defined.

Lemma cache_only_after_cacheable_success_witness :
  cache (request Sample.cfg Sample.online "/x"
           (mkRequestInit (Some "POST") None []) true 300000 Sample.w_cached).2
  = cache Sample.w_cached
  ∧ cache (post Sample.cfg Sample.online "/x" (Some (JNum 1)) Sample.w_cached).2
    = cache Sample.w_cached.
Proof.
  pose proof (cache_only_after_cacheable_success Sample.cfg Sample.online "/x"
                (mkRequestInit (Some "POST") None []) true 300000
                Sample.w_cached) as (_ & Hframe & _ & Hpost & _).
  split.
  - apply Hframe. right. reflexivity.
  - apply Hpost.
Defined.

Lemma failures_reported_before_retry_witness :
  ∃ latency r d w',
    Sample.flaky 2 = Responds latency r ∧ resp_json r = Some d
    ∧ request Sample.cfg Sample.flaky "/x" Sample.get_x true 300000 Sample.w0
      = (Resolved {| data := d; status := resp_status r;
                     statusText := resp_statusText r;
                     headers := resp_headers r |}, w')
    ∧ reports (errorLog w')
      = [("API_ERROR", "Request failed: https://api.example/x",
          {| d_attempt := 0; d_error := Some "Failed to fetch" |});
         ("API_TIMEOUT", "Request timeout: https://api.example/x",
          {| d_attempt := 1; d_error := None |})]
    ∧ trace w'
      = [EvFetch "https://api.example/x" (fetch_init Sample.get_x);
         EvConsoleError "API_ERROR" "Request failed: https://api.example/x";
         EvSleep 1000;
         EvFetch "https://api.example/x" (fetch_init Sample.get_x);
         EvConsoleError "API_TIMEOUT" "Request timeout: https://api.example/x";
         EvSleep 2000;
         EvFetch "https://api.example/x" (fetch_init Sample.get_x)].
Proof.
  pose proof (failures_reported_before_retry Sample.cfg Sample.flaky "/x"
                Sample.get_x true 300000 Sample.w0 eq_refl) as (_ & Hscenario).
  apply Hscenario.
  - discriminate.
  - eexists. reflexivity.
  - eexists. reflexivity.
  - reflexivity.
Defined.

Lemma exhausted_error_is_last_failure_witness :
  ∃ e kind,
    (request Sample.cfg Sample.silent "/x" Sample.get_x true 300000 Sample.w0).1
    = Rejected e
    ∧ failure Sample.cfg Hangs = Some e
    ∧ kind_of Sample.cfg Hangs = Some kind
    ∧ ∀ b, failure Sample.cfg b = Some e → kind_of Sample.cfg b = Some kind.
Proof.
  apply (exhausted_error_is_last_failure Sample.cfg Sample.silent "/x"
           Sample.get_x true 300000 Sample.w0).
  - discriminate.
  - reflexivity.
  - intros j _. eexists. reflexivity.
Defined.

Lemma timeout_classification_witness :
  (attempt_try Sample.cfg Sample.silent "https://api.example/x" Sample.get_x
     true 300000 "GET:https://api.example/x:" Sample.w0).1 = Throw AbortError
  ∧ kind_of Sample.cfg (Sample.silent 0) = Some Timeout
  ∧ reports (errorLog (attempt_catch Sample.cfg "https://api.example/x" 0 AbortError
       (attempt_try Sample.cfg Sample.silent "https://api.example/x" Sample.get_x
          true 300000 "GET:https://api.example/x:" Sample.w0).2))
    = [("API_TIMEOUT", "Request timeout: https://api.example/x",
        {| d_attempt := 0; d_error := None |})].
Proof.
  apply (timeout_classification Sample.cfg Sample.silent "https://api.example/x"
           Sample.get_x true 300000 "GET:https://api.example/x:" 0 Sample.w0).
  reflexivity.
Defined.

Lemma cached_response_shape_witness :
  ∃ w1,
    get Sample.cfg Sample.online "/x" true Sample.w0
    = (Resolved {| data := JNum 7; status := 201%N; statusText := "Created";
                   headers := [("etag", "v1")] |}, w1)
    ∧ get Sample.cfg Sample.online "/x" true (advance 299999 w1)
      = (Resolved {| data := JNum 7; status := 200%N;
                     statusText := "OK (Cached)"; headers := [] |},
         advance 299999 w1).
Proof.
  pose proof (cached_response_shape Sample.cfg Sample.online "/x" Sample.w0)
    as (_ & Htwice).
  apply (Htwice 5%N Sample.created (JNum 7) 299999).
  - discriminate.
  - reflexivity.
  - reflexivity.
  - reflexivity.
  - reflexivity.
  - reflexivity.
  - split; [discriminate|reflexivity].
Defined.

(** ** The sweep of the cache *)

Lemma clearExpiredCache_lookup w key cached :
  cache (clearExpiredCache w) !! key = Some cached ↔
  cache w !! key = Some cached ∧ now w - ce_timestamp cached < ce_ttl cached.
Proof.
  unfold clearExpiredCache; simpl.
  rewrite map_lookup_filter_Some. simpl. split; intros [? ?]; split; auto; lia.
Qed.

Lemma clearExpiredCache_valid w key :
  isCacheValid key (clearExpiredCache w) = isCacheValid key w.
Proof.
  unfold isCacheValid.
  destruct (cache w !! key) as [cached|] eqn:Hw.
  - destruct (decide (now w - ce_timestamp cached < ce_ttl cached)) as [Hlive|Hdead].
    + assert (Hs : cache (clearExpiredCache w) !! key = Some cached)
        by (by apply clearExpiredCache_lookup).
      rewrite Hs. reflexivity.
    + destruct (cache (clearExpiredCache w) !! key) as [c|] eqn:Hs.
      * apply clearExpiredCache_lookup in Hs as [Hs ?]. simplify_eq. lia.
      * symmetry. by apply bool_decide_eq_false.
  - destruct (cache (clearExpiredCache w) !! key) as [c|] eqn:Hs; [|done].
    apply clearExpiredCache_lookup in Hs as [Hs ?]. congruence.
Qed.

(** X2.  The sweep removes the entries that are no longer live and nothing else:
    what stays is live and unchanged, every live entry stays, the answer of
    [isCacheValid] is the same before and after for every key, and a second
    sweep at the same time finds nothing to remove. *)
Theorem clearExpiredCache_keeps_live w :
  (∀ key cached,
     cache (clearExpiredCache w) !! key = Some cached →
     cache w !! key = Some cached ∧ isCacheValid key (clearExpiredCache w) = true)
  ∧ (∀ key cached,
       cache w !! key = Some cached →
       now w - ce_timestamp cached < ce_ttl cached →
       cache (clearExpiredCache w) !! key = Some cached)
  ∧ (∀ key, isCacheValid key (clearExpiredCache w) = isCacheValid key w)
  ∧ clearExpiredCache (clearExpiredCache w) = clearExpiredCache w.
Proof.
  split; [|split; [|split]].
  - intros key cached Hs. pose proof Hs as Hs'.
    apply clearExpiredCache_lookup in Hs' as [Hw Hlive]. split; [done|].
    unfold isCacheValid. rewrite Hs. by apply bool_decide_eq_true.
  - intros key cached Hw Hlive. by apply clearExpiredCache_lookup.
  - apply clearExpiredCache_valid.
  - destruct w as [c n l ts nt f tr]. unfold clearExpiredCache. simpl.
    f_equal. apply map_eq. intros key. apply option_eq. intros cached.
    rewrite !map_lookup_filter_Some. simpl. tauto.
Qed.

Section Sweep.

Variable config : Config.
Variable net : nat → FetchBehaviour.

Implicit Types (w : World) (options : RequestInit).

(** The loop never reads the cache: from two worlds that differ only in
    the cache it ends in the same way. *)
Lemma attempt_try_same fullUrl options useCache cacheTTL cacheKey w1 w2 :
  same_outside_cache w1 w2 →
  (attempt_try config net fullUrl options useCache cacheTTL cacheKey w1).1
  = (attempt_try config net fullUrl options useCache cacheTTL cacheKey w2).1
  ∧ same_outside_cache
      (attempt_try config net fullUrl options useCache cacheTTL cacheKey w1).2
      (attempt_try config net fullUrl options useCache cacheTTL cacheKey w2).2.
Proof.
  intros (Hn & Hl & Ht & Hi & Hf & Hr).
  unfold attempt_try, aborted, same_outside_cache; simpl.
  rewrite Hf. destruct (net (fetches w2)); simpl;
    repeat case_match; simpl; rewrite ?Hn, ?Hl, ?Ht, ?Hi, ?Hf, ?Hr; done.
Qed.

Lemma attempt_catch_same fullUrl attempt e w1 w2 :
  same_outside_cache w1 w2 →
  same_outside_cache (attempt_catch config fullUrl attempt e w1)
                     (attempt_catch config fullUrl attempt e w2).
Proof.
  intros (Hn & Hl & Ht & Hi & Hf & Hr).
  unfold attempt_catch, delay, logError, same_outside_cache; simpl.
  repeat case_match; simpl; rewrite ?Hn, ?Hl, ?Ht, ?Hi, ?Hf, ?Hr; done.
Qed.

Lemma attempts_same fullUrl options useCache cacheTTL cacheKey indices :
  ∀ lastError w1 w2,
    same_outside_cache w1 w2 →
    (attempts config net fullUrl options useCache cacheTTL cacheKey
              indices lastError w1).1
    = (attempts config net fullUrl options useCache cacheTTL cacheKey
                indices lastError w2).1
    ∧ same_outside_cache
        (attempts config net fullUrl options useCache cacheTTL cacheKey
                  indices lastError w1).2
        (attempts config net fullUrl options useCache cacheTTL cacheKey
                  indices lastError w2).2.
Proof.
  induction indices as [|attempt rest IH]; intros lastError w1 w2 Hsame; simpl.
  - done.
  - destruct (attempt_try_same fullUrl options useCache cacheTTL cacheKey
                w1 w2 Hsame) as [Hc Hw].
    destruct (attempt_try config net fullUrl options useCache cacheTTL cacheKey w1)
      as [c1 w1'], (attempt_try config net fullUrl options useCache cacheTTL cacheKey w2)
      as [c2 w2']. simpl in Hc, Hw. subst c2.
    destruct c1 as [r|e]; simpl; [done|].
    apply IH. by apply attempt_catch_same.
Qed.

(** X3.  A sweep of the cache before a call is not observable through the call:
    the outcome of the call is the same, and so are the clock, the error
    log, the pending timers, the number of invocations of [fetch] and the
    trace after it. *)
Theorem clearExpiredCache_unobservable url options useCache cacheTTL w :
  let swept := request config net url options useCache cacheTTL
                       (clearExpiredCache w) in
  let plain := request config net url options useCache cacheTTL w in
  swept.1 = plain.1 ∧ same_outside_cache swept.2 plain.2.
Proof.
  assert (Hsame : same_outside_cache (clearExpiredCache w) w) by done.
  assert (Hhit : cache_hit config url options useCache (clearExpiredCache w)
                 = cache_hit config url options useCache w).
  { unfold cache_hit. by rewrite clearExpiredCache_valid. }
  unfold request. rewrite Hhit.
  destruct (cache_hit config url options useCache w) eqn:Hc.
  - apply cache_hit_live in Hc as (_ & _ & cached & Hentry & Hlive).
    rewrite Hentry.
    assert (Hs : cache (clearExpiredCache w)
                 !! getCacheKey (resolve config url) options = Some cached)
      by (by apply clearExpiredCache_lookup).
    rewrite Hs. done.
  - by apply attempts_same.
Qed.

End Sweep.

(** ** Bounds on a call *)

Section Bounds.

Variable config : Config.
Variable net : nat → FetchBehaviour.

Implicit Types (w : World) (options : RequestInit) (e : JsError).

Lemma attempts_fetches_bound fullUrl options useCache cacheTTL cacheKey indices :
  ∀ lastError w,
    let res := attempts config net fullUrl options useCache cacheTTL cacheKey
                        indices lastError w in
    (fetches w ≤ fetches res.2 ≤ fetches w + length indices)%nat.
Proof.
  induction indices as [|attempt rest IH]; intros lastError w; simpl; [lia|].
  pose proof (attempt_try_fetches config net fullUrl options useCache
                cacheTTL cacheKey w) as Hf.
  destruct (attempt_try config net fullUrl options useCache cacheTTL cacheKey w)
    as [[r|e] w']; simpl in *; [lia|].
  specialize (IH (Some e) (attempt_catch config fullUrl attempt e w')).
  simpl in IH. rewrite attempt_catch_fetches in IH. lia.
Qed.

(** X5.  Whatever the network does, a call invokes [fetch] at most
    [retries + 1] times, and not at all when [retries] is negative. *)
Theorem request_attempts_bound url options useCache cacheTTL w :
  let res := request config net url options useCache cacheTTL w in
  (fetches w ≤ fetches res.2)%nat
  ∧ Z.of_nat (fetches res.2)
    ≤ Z.of_nat (fetches w) + Z.max 0 (cfg_retries config + 1).
Proof.
  unfold request.
  destruct (cache_hit config url options useCache w).
  - case_match; simpl; lia.
  - match goal with
    | |- context [attempts _ _ ?u ?o ?c ?ttl ?key ?idx ?err w] =>
        pose proof (attempts_fetches_bound u o c ttl key idx err w) as Hb
    end.
    simpl in Hb. rewrite length_seqZ in Hb. simpl. lia.
Qed.

(** X6.  With a negative [retries] the loop is not entered: a call that is not
    served from the cache is rejected with the error of line 241, without
    any invocation of [fetch] and without a report. *)
Theorem negative_retries_reject url options useCache cacheTTL w :
  cfg_retries config < 0 →
  cache_hit config url options useCache w = false →
  request config net url options useCache cacheTTL w
  = (Rejected (mkJsError "Error" "Request failed after all retries"), w).
Proof.
  intros Hneg Hmiss. rewrite request_miss by done.
  by rewrite seqZ_nil by lia.
Qed.

Lemma waited_failed_events fullUrl options n :
  ∀ attempt k,
    attempt + Z.of_nat (S n) = cfg_retries config + 1 →
    0 ≤ attempt →
    waited (failed_events config net fullUrl options (S n) attempt k)
    = cfg_retryDelay config * (2 ^ cfg_retries config - 2 ^ attempt).
Proof.
  induction n as [|n IH]; intros attempt k Hn Ha.
  - simpl. unfold failed_iteration.
    rewrite bool_decide_eq_false_2 by lia. simpl.
    replace attempt with (cfg_retries config) by lia. lia.
  - change (failed_events config net fullUrl options (S (S n)) attempt k)
      with (failed_iteration config fullUrl options attempt (thrown config net k)
            ++ failed_events config net fullUrl options (S n) (attempt + 1) (S k)).
    unfold failed_iteration.
    rewrite bool_decide_eq_true_2 by lia.
    cbn [app waited]. rewrite IH by lia.
    rewrite Z.pow_add_r by lia. lia.
Qed.

(** X7.  When every attempt fails, the waits of the call add up to
    [retryDelay * (2 ^ retries - 1)] milliseconds. *)
Theorem total_backoff url options useCache cacheTTL w :
  0 ≤ cfg_retries config →
  cache_hit config url options useCache w = false →
  (∀ j, Z.of_nat j ≤ cfg_retries config →
        is_Some (failure config (net (fetches w + j)%nat))) →
  ∃ t,
    trace (request config net url options useCache cacheTTL w).2 = trace w ++ t
    ∧ waited t = cfg_retryDelay config * (2 ^ cfg_retries config - 1).
Proof.
  intros Hretries Hmiss Hfail.
  destruct (request_failures config net url options useCache cacheTTL w
              (S (Z.to_nat (cfg_retries config))) Hmiss)
    as (w1 & Heq & _ & _ & Ht & _); [lia| |].
  { intros j Hj. apply Hfail. lia. }
  rewrite Heq, seqZ_nil by lia. simpl attempts. simpl snd.
  eexists. split; [exact Ht|].
  rewrite waited_failed_events by lia. done.
Qed.

Lemma attempts_reports fullUrl options useCache cacheTTL cacheKey n :
  ∀ attempt lastError w,
    let res := attempts config net fullUrl options useCache cacheTTL cacheKey
                        (seqZ attempt (Z.of_nat n)) lastError w in
    ∃ new,
      errorLog res.2 = errorLog w ++ new
      ∧ map (λ r, d_attempt (ae_details r)) new
        = seqZ attempt (Z.of_nat (length new))
      ∧ Forall (λ r, ae_code r = "API_TIMEOUT" ∨ ae_code r = "API_ERROR") new.
Proof.
  induction n as [|n IH]; intros attempt lastError w.
  - exists []. rewrite seqZ_nil by lia. simpl. by rewrite app_nil_r.
  - rewrite seqZ_cons by lia. simpl.
    pose proof (attempt_try_errorLog config net fullUrl options useCache
                  cacheTTL cacheKey w) as Hl.
    destruct (attempt_try config net fullUrl options useCache cacheTTL cacheKey w)
      as [[r|e] w']; simpl in *.
    + exists []. rewrite app_nil_r. done.
    + replace (Z.pred (Z.of_nat (S n))) with (Z.of_nat n) by lia.
      destruct (IH (Z.succ attempt) (Some e)
                  (attempt_catch config fullUrl attempt e w'))
        as (new & Hnew & Hnum & Hcode).
      eexists (_ :: new). split; [|split].
      * rewrite Hnew, attempt_catch_errorLog, Hl, <- app_assoc. reflexivity.
      * simpl length. rewrite (seqZ_cons attempt) by lia. simpl. f_equal.
        { unfold report_details. by case_match. }
        rewrite Hnum. f_equal. lia.
      * constructor; [|done]. simpl. unfold report_code. case_match; auto.
Qed.

(** X8.  The error log is only appended to by a call, and the reports that a
    call appends carry the attempt numbers 0, 1, 2, ... in this order, each
    with the code [API_TIMEOUT] or [API_ERROR]. *)
Theorem reports_numbered url options useCache cacheTTL w :
  ∃ new,
    errorLog (request config net url options useCache cacheTTL w).2
    = errorLog w ++ new
    ∧ map (λ r, d_attempt (ae_details r)) new = seqZ 0 (Z.of_nat (length new))
    ∧ Forall (λ r, ae_code r = "API_TIMEOUT" ∨ ae_code r = "API_ERROR") new.
Proof.
  unfold request.
  destruct (cache_hit config url options useCache w).
  - exists []. case_match; simpl; by rewrite app_nil_r.
  - destruct (decide (0 ≤ cfg_retries config + 1)) as [Hpos|Hneg].
    + rewrite <- (Z2Nat.id (cfg_retries config + 1)) by done.
      apply attempts_reports.
    + rewrite seqZ_nil by lia. exists []. simpl. by rewrite app_nil_r.
Qed.

Lemma attempt_try_timers fullUrl options useCache cacheTTL cacheKey w tm :
  (∀ latency msg, net (fetches w) = NetworkFails latency msg →
                  in_time config latency = false) →
  tm ∈ timers (attempt_try config net fullUrl options useCache cacheTTL cacheKey w).2 →
  tm ∈ timers w.
Proof.
  intros Hnet.
  assert (Hfired : ∀ dt,
    tm ∈ filter (λ t, now w + Z.max 0 dt < fires_at t)
           (timers w ++ [mkTimer (nextTimer w) (now w + Z.max 0 dt)]) →
    tm ∈ timers w).
  { intros dt Htm. apply list_elem_of_filter in Htm as [Hdue Htm].
    apply elem_of_app in Htm as [?|Htm]; [done|].
    apply list_elem_of_singleton in Htm. subst tm. simpl in Hdue. lia. }
  unfold attempt_try, aborted; simpl.
  destruct (net (fetches w)) as [latency r|latency msg|] eqn:Hb; simpl.
  - destruct (in_time config latency); simpl; [|apply Hfired].
    assert (Hclear :
      tm ∈ filter (λ t, timer_id t ≠ nextTimer w)
             (filter (λ t, now w + Z.max 0 (Z.of_N latency) < fires_at t)
                (timers w ++ [mkTimer (nextTimer w)
                                (now w + Z.max 0 (cfg_timeout config))])) →
      tm ∈ timers w).
    { intros Htm. apply list_elem_of_filter in Htm as [Hid Htm].
      apply list_elem_of_filter in Htm as [_ Htm].
      apply elem_of_app in Htm as [?|Htm]; [done|].
      apply list_elem_of_singleton in Htm. subst tm. done. }
    repeat case_match; simpl; apply Hclear.
  - rewrite (Hnet latency msg eq_refl). simpl. apply Hfired.
  - apply Hfired.
Qed.

Lemma attempt_catch_timers fullUrl attempt e w tm :
  tm ∈ timers (attempt_catch config fullUrl attempt e w) → tm ∈ timers w.
Proof.
  unfold attempt_catch, delay, logError. repeat case_match; simpl; try done.
  all: intros Htm; by apply list_elem_of_filter in Htm as [_ ?].
Qed.

(** X9.  On a network where [fetch] never rejects before the deadline, a call
    leaves none of its deadline timers behind: every timer that is pending
    after the call was pending before it. *)
Theorem no_timer_left_without_rejection url options useCache cacheTTL w tm :
  (∀ k latency msg, net k = NetworkFails latency msg →
                    in_time config latency = false) →
  tm ∈ timers (request config net url options useCache cacheTTL w).2 →
  tm ∈ timers w.
Proof.
  intros Hnet. unfold request.
  destruct (cache_hit config url options useCache w); [by case_match|].
  generalize (seqZ 0 (cfg_retries config + 1)) (@None JsError).
  intros indices. revert w.
  induction indices as [|attempt rest IH]; intros w lastError; simpl; [done|].
  pose proof (attempt_try_timers (resolve config url) options useCache cacheTTL
                (getCacheKey (resolve config url) options) w tm
                (Hnet (fetches w))) as Htry.
  destruct (attempt_try config net (resolve config url) options useCache cacheTTL
              (getCacheKey (resolve config url) options) w) as [[r|e] w'];
    simpl in *; [done|].
  intros Htm. apply Htry. eapply attempt_catch_timers. eapply IH, Htm.
Qed.

End Bounds.

(** ** Strings *)

Lemma string_app_nil_l (s : string) : "" +:+ s = s.
Proof. reflexivity. Qed.

Lemma string_app_cons c (a b : string) : String c a +:+ b = String c (a +:+ b).
Proof. reflexivity. Qed.

Lemma string_length_app (a b : string) :
  String.length (a +:+ b) = (String.length a + String.length b)%nat.
Proof.
  induction a as [|c a IH]; [done|].
  rewrite string_app_cons. simpl. by rewrite IH.
Qed.

Lemma string_app_inv_tail (a b s : string) : a +:+ s = b +:+ s → a = b.
Proof.
  revert b. induction a as [|c a IH]; intros [|c' b] Heq.
  - done.
  - apply (f_equal String.length) in Heq.
    rewrite !string_length_app in Heq. simpl in Heq. lia.
  - apply (f_equal String.length) in Heq.
    rewrite !string_length_app in Heq. simpl in Heq. lia.
  - rewrite !string_app_cons in Heq.
    injection Heq as -> Heq. f_equal. by apply IH.
Qed.

Lemma string_app_assoc (a b c : string) : (a +:+ b) +:+ c = a +:+ b +:+ c.
Proof.
  induction a as [|x a IH]; [done|].
  rewrite !string_app_cons. by rewrite IH.
Qed.

Lemma string_prefix_app (p a b : string) :
  String.prefix p a = true → String.prefix p (a +:+ b) = true.
Proof.
  revert a. induction p as [|c p IH]; intros a Hp.
  - by destruct (a +:+ b).
  - destruct a as [|c' a]; [done|].
    rewrite string_app_cons. simpl in *.
    destruct (Ascii.ascii_dec c c'); [by apply IH|done].
Qed.

(** ** Keys, URLs and headers of a call *)

Section Keys.

Variable config : Config.
Variable net : nat → FetchBehaviour.

Implicit Types (w : World) (options : RequestInit).

(** X10.  Calls with the same options have the same cache key only when their
    URLs are the same; and the key of a call made by [post], [put] or
    [delete] is never the key of a call made by [get], whatever the URLs and
    the body. *)
Theorem getCacheKey_separates :
  (∀ url1 url2 options,
     getCacheKey url1 options = getCacheKey url2 options → url1 = url2)
  ∧ (∀ url1 url2 d,
       getCacheKey url1 (mkRequestInit (Some "POST") (body_of d) [])
       ≠ getCacheKey url2 (mkRequestInit (Some "GET") None []))
  ∧ (∀ url1 url2 d,
       getCacheKey url1 (mkRequestInit (Some "PUT") (body_of d) [])
       ≠ getCacheKey url2 (mkRequestInit (Some "GET") None []))
  ∧ (∀ url1 url2,
       getCacheKey url1 (mkRequestInit (Some "DELETE") None [])
       ≠ getCacheKey url2 (mkRequestInit (Some "GET") None [])).
Proof.
  split; [|split; [|split]].
  - intros url1 url2 options. unfold getCacheKey.
    set (m := if String.eqb _ "" then _ else _).
    set (b := match init_body options with Some _ => _ | None => _ end).
    intros Heq. apply (inj (String.app m)) in Heq.
    apply (inj (String.app ":")) in Heq.
    by apply (string_app_inv_tail _ _ (":" +:+ b)) in Heq.
  - intros url1 url2 d. unfold getCacheKey. simpl. discriminate.
  - intros url1 url2 d. unfold getCacheKey. simpl. discriminate.
  - intros url1 url2. unfold getCacheKey. simpl. discriminate.
Qed.

(** X11.  A URL that starts with [http] is fetched as it is, whatever the base
    URL.  When the base URL itself starts with [http], every URL that is
    fetched does, and resolving it once more changes nothing. *)
Theorem resolve_absolute url :
  (String.prefix "http" url = true → resolve config url = url)
  ∧ (String.prefix "http" (cfg_baseURL config) = true →
     String.prefix "http" (resolve config url) = true
     ∧ resolve config (resolve config url) = resolve config url).
Proof.
  unfold resolve. split.
  - by intros ->.
  - intros Hbase.
    assert (Hres : String.prefix "http"
                     (if String.prefix "http" url then url
                      else cfg_baseURL config +:+ url) = true).
    { destruct (String.prefix "http" url) eqn:Hurl; [done|].
      by apply string_prefix_app. }
    split; [done|]. by rewrite Hres.
Qed.

Lemma header_value_set_header k k' v h :
  header_value k (set_header k' v h)
  = if String.eqb k' k then Some v else header_value k h.
Proof.
  induction h as [|[k0 v0] h IH]; simpl; [done|].
  destruct (String.eqb_spec k0 k') as [->|H0]; simpl.
  - by destruct (String.eqb k' k).
  - rewrite IH.
    destruct (String.eqb_spec k0 k) as [->|H1]; [|done].
    by destruct (String.eqb_spec k' k) as [->|H2].
Qed.

Lemma header_value_spread k overrides :
  ∀ base,
    header_value k (foldl (λ acc kv, set_header kv.1 kv.2 acc) base overrides)
    = last_override k (header_value k base) overrides.
Proof.
  induction overrides as [|[k' v] rest IH]; intros base; simpl; [done|].
  rewrite IH, header_value_set_header. done.
Qed.

Lemma last_override_absent k base overrides :
  Forall (λ kv, kv.1 ≠ k) overrides → last_override k base overrides = base.
Proof.
  revert base. induction overrides as [|[k' v] rest IH]; intros base Hall; [done|].
  apply Forall_cons in Hall as [Hk Hrest]. simpl in *.
  apply String.eqb_neq in Hk. rewrite Hk. by apply IH.
Qed.

(** X12.  The headers that go to [fetch]: a header of the caller wins over the
    default, the last one when the caller names a key twice; without a
    [Content-Type] of the caller the request is sent as
    [application/json]. *)
Theorem merged_headers_precedence options :
  (Forall (λ kv, kv.1 ≠ "Content-Type") (init_headers options) →
   header_value "Content-Type" (merged_headers options) = Some "application/json")
  ∧ (∀ k v before after,
       init_headers options = before ++ (k, v) :: after →
       Forall (λ kv, kv.1 ≠ k) after →
       header_value k (merged_headers options) = Some v).
Proof.
  unfold merged_headers. split.
  - intros Habsent. rewrite header_value_spread.
    by rewrite last_override_absent.
  - intros k v before after -> Hafter.
    rewrite header_value_spread.
    generalize (header_value k [("Content-Type", "application/json")]).
    induction before as [|[k' v'] before IH]; intros base; simpl.
    + rewrite String.eqb_refl. by apply last_override_absent.
    + apply IH.
Qed.

(** X4.  A [get] that fetched a response, and a second [get] of the same URL
    five minutes later or more: the entry has expired, so the second call
    invokes [fetch] again. *)
Theorem get_refetches_after_expiry url w latency r d dt :
  0 ≤ cfg_retries config →
  cache_hit config url (mkRequestInit (Some "GET") None []) true w = false →
  net (fetches w) = Responds latency r →
  in_time config latency = true →
  resp_ok r = true →
  resp_json r = Some d →
  default_cacheTTL ≤ dt →
  let w1 := (get config net url true w).2 in
  fetches w1 = S (fetches w)
  ∧ isCacheValid (getCacheKey (resolve config url)
                    (mkRequestInit (Some "GET") None [])) w1 = true
  ∧ cache_hit config url (mkRequestInit (Some "GET") None []) true
      (advance dt w1) = false
  ∧ (fetches w1 < fetches (get config net url true (advance dt w1)).2)%nat.
Proof.
  intros Hretries Hmiss Hnet Htime Hok Hjson Hdt w1.
  assert (Hw1 : ∃ w0, w1 = setCache (getCacheKey (resolve config url)
                                       (mkRequestInit (Some "GET") None []))
                                    d default_cacheTTL w0
                      ∧ fetches w0 = S (fetches w)).
  { unfold w1, get. rewrite request_miss by done.
    rewrite seqZ_cons by lia. simpl attempts.
    unfold attempt_try. simpl. rewrite Hnet, Htime, Hok, Hjson. simpl.
    eexists. split; reflexivity. }
  destruct Hw1 as (w0 & Hw1 & Hf0). clearbody w1. subst w1.
  assert (Hdead : cache_hit config url (mkRequestInit (Some "GET") None []) true
                    (advance dt (setCache (getCacheKey (resolve config url)
                       (mkRequestInit (Some "GET") None [])) d default_cacheTTL w0))
                  = false).
  { unfold cache_hit. rewrite setCache_live.
    rewrite bool_decide_eq_false_2 by lia. apply andb_false_r. }
  split; [exact Hf0|]. split; [|split; [exact Hdead|]].
  - unfold isCacheValid, setCache. simpl. rewrite lookup_insert_eq. simpl.
    apply bool_decide_eq_true. unfold default_cacheTTL. lia.
  - unfold get. rewrite request_miss by done.
    rewrite seqZ_cons by lia. simpl attempts.
    match goal with
    | |- context [attempt_try _ _ ?u ?o ?c ?ttl ?key ?w'] =>
        pose proof (attempt_try_fetches config net u o c ttl key w') as Hf;
        destruct (attempt_try config net u o c ttl key w') as [[r'|e] w2]
    end; simpl in Hf.
    + simpl in *. lia.
    + match goal with
      | |- context [attempts _ _ ?u ?o ?c ?ttl ?key ?idx ?err ?w'] =>
          pose proof (attempts_fetches_bound config net u o c ttl key idx err w') as Hb
      end.
      simpl in Hb. rewrite attempt_catch_fetches in Hb. simpl in *. lia.
Qed.

End Keys.

(** ** The rate limiter *)

Section RateLimiter.

Variables maxRequests timeWindow : Z.

Implicit Types (requests : gmap string (list Z)) (granted : list (string * Z)).

Lemma recent_app now (l1 l2 : list Z) :
  recent timeWindow now (l1 ++ l2)
  = recent timeWindow now l1 ++ recent timeWindow now l2.
Proof. apply filter_app. Qed.

Lemma recent_later now now' (l : list Z) :
  now ≤ now' →
  recent timeWindow now' (recent timeWindow now l) = recent timeWindow now' l.
Proof.
  intros Hle. unfold recent.
  induction l as [|t l IH]; [done|].
  rewrite (filter_cons _ t l).
  destruct (decide (now - t < timeWindow)) as [Hin|Hout].
  - rewrite !filter_cons. destruct (decide (now' - t < timeWindow)); by rewrite IH.
  - rewrite IH, (filter_cons _ t l).
    destruct (decide (now' - t < timeWindow)); [lia|done].
Qed.

Lemma granted_recent key now granted :
  length (filter (λ call : string * Z,
                    call.1 = key ∧ now - call.2 < timeWindow) granted)
  = length (recent timeWindow now (filter (λ call, call.1 = key) granted).*2).
Proof.
  unfold recent. induction granted as [|[k t] granted IH]; [done|].
  rewrite !filter_cons. simpl.
  destruct (decide (k = key)) as [->|Hk].
  - rewrite fmap_cons, filter_cons. simpl.
    destruct (decide (now - t < timeWindow)).
    + rewrite decide_True by done. simpl. by rewrite IH.
    + rewrite decide_False by tauto. done.
  - rewrite decide_False by tauto. done.
Qed.

Lemma serve_agrees calls :
  ∀ since requests granted,
    (∀ key now, since ≤ now →
       recent timeWindow now (default [] (requests !! key))
       = recent timeWindow now (filter (λ call, call.1 = key) granted).*2) →
    in_time_order since calls →
    (serve maxRequests timeWindow calls requests).1
    = granted_by_count maxRequests timeWindow calls granted.
Proof.
  induction calls as [|[key now] calls IH]; intros since requests granted Hinv Hord;
    [done|].
  destruct Hord as [Hsince Hord]. simpl.
  unfold createRateLimiter.
  rewrite granted_recent, <- (Hinv key now Hsince).
  set (valid := recent timeWindow now (default [] (requests !! key))).
  destruct (decide (maxRequests ≤ Z.of_nat (length valid))) as [Hfull|Hroom].
  - rewrite bool_decide_eq_true_2 by done.
    rewrite (bool_decide_eq_false_2 (Z.of_nat (length valid) < maxRequests)) by lia.
    specialize (IH now requests granted).
    destruct (serve maxRequests timeWindow calls requests) as [oks requests'].
    simpl in *. f_equal. apply IH; [|done].
    intros key' now' Hnow'. apply Hinv. lia.
  - rewrite bool_decide_eq_false_2 by done.
    rewrite (bool_decide_eq_true_2 (Z.of_nat (length valid) < maxRequests)) by lia.
    specialize (IH now (<[key := valid ++ [now]]> requests) (granted ++ [(key, now)])).
    destruct (serve maxRequests timeWindow calls (<[key := valid ++ [now]]> requests))
      as [oks requests'].
    simpl in *. f_equal. apply IH; [|done].
    intros key' now' Hnow'.
    rewrite filter_app, fmap_app, recent_app.
    destruct (decide (key = key')) as [<-|Hne].
    + rewrite lookup_insert_eq. simpl.
      rewrite recent_app. unfold valid. rewrite recent_later by done.
      rewrite Hinv by lia. f_equal.
      rewrite filter_cons, decide_True by done. done.
    + rewrite lookup_insert_ne by done.
      rewrite Hinv by lia.
      rewrite filter_cons, decide_False by (simpl; congruence).
      rewrite filter_nil. simpl. by rewrite app_nil_r.
Qed.

(** X13.  A limiter that is called at times that do not decrease grants a call
    exactly when fewer than [maxRequests] calls with the same key were
    granted during the last [timeWindow] milliseconds: dropping the old time
    stamps, and keeping nothing of a refused call, changes no answer. *)
Theorem createRateLimiter_counts calls since :
  in_time_order since calls →
  (serve maxRequests timeWindow calls ∅).1
  = granted_by_count maxRequests timeWindow calls [].
Proof.
  intros Hord. eapply serve_agrees; [|exact Hord].
  intros key now _. by rewrite lookup_empty.
Qed.

Lemma createRateLimiter_stored key now requests :
  (∀ k l, requests !! k = Some l →
          (1 ≤ length l)%nat ∧ Z.of_nat (length l) ≤ maxRequests) →
  ∀ k l, (createRateLimiter maxRequests timeWindow key now requests).2 !! k = Some l →
         (1 ≤ length l)%nat ∧ Z.of_nat (length l) ≤ maxRequests.
Proof.
  intros Hinv k l. unfold createRateLimiter.
  case_bool_decide as Hfull; simpl; [apply Hinv|].
  destruct (decide (key = k)) as [<-|Hne].
  - rewrite lookup_insert_eq. intros [= <-].
    rewrite length_app. simpl. lia.
  - rewrite lookup_insert_ne by done. apply Hinv.
Qed.

(** X14.  Whatever the calls and their times, the limiter never holds more than
    [maxRequests] time stamps under a key, and it holds no empty list: a key
    enters the map with its first granted call. *)
Theorem createRateLimiter_bounded calls key l :
  (serve maxRequests timeWindow calls ∅).2 !! key = Some l →
  (1 ≤ length l)%nat ∧ Z.of_nat (length l) ≤ maxRequests.
Proof.
  assert (Hgen : ∀ requests,
    (∀ k l, requests !! k = Some l →
            (1 ≤ length l)%nat ∧ Z.of_nat (length l) ≤ maxRequests) →
    ∀ k l, (serve maxRequests timeWindow calls requests).2 !! k = Some l →
           (1 ≤ length l)%nat ∧ Z.of_nat (length l) ≤ maxRequests).
  { induction calls as [|[key' now] calls IH]; intros requests Hinv; [done|].
    simpl.
    pose proof (createRateLimiter_stored key' now requests Hinv) as Hstep.
    destruct (createRateLimiter maxRequests timeWindow key' now requests)
      as [ok requests'].
    specialize (IH requests' Hstep).
    destruct (serve maxRequests timeWindow calls requests') as [oks requests''].
    exact IH. }
  apply Hgen. intros k l'. by rewrite lookup_empty.
Qed.

End RateLimiter.

(** ** [validateApiKey] and [generateSecureId] *)

Lemma strip_prefix_Some (p s body : string) :
  strip_prefix p s = Some body ↔ s = p +:+ body.
Proof.
  revert s. induction p as [|a p IH]; intros s; simpl.
  - rewrite string_app_nil_l. split; [by intros [= ->]|by intros ->].
  - rewrite string_app_cons. destruct s as [|b s].
    + split; intros; discriminate.
    + destruct (Ascii.eqb_spec a b) as [->|Hab].
      * rewrite IH. split; [by intros ->|by intros [= ->]].
      * split; [discriminate|]. intros [= ? ?]. done.
Qed.

Lemma all_alnum_app (a b : string) :
  all_alnum (a +:+ b) = all_alnum a && all_alnum b.
Proof.
  induction a as [|c a IH]; [done|].
  rewrite string_app_cons. simpl. by rewrite IH, andb_assoc.
Qed.

Lemma key_shape_true (prefix apiKey : string) :
  key_shape prefix apiKey = true ↔
  ∃ body, apiKey = prefix +:+ body
          ∧ (32 ≤ String.length body)%nat ∧ all_alnum body = true.
Proof.
  unfold key_shape. split.
  - destruct (strip_prefix prefix apiKey) as [body|] eqn:Hs; [|done].
    intros [Hlen Halnum]%andb_true_iff.
    exists body. apply strip_prefix_Some in Hs. apply Nat.leb_le in Hlen. done.
  - intros (body & -> & Hlen & Halnum).
    assert (Hs : strip_prefix prefix (prefix +:+ body) = Some body)
      by (by apply strip_prefix_Some).
    rewrite Hs, Halnum, andb_true_r. by apply Nat.leb_le.
Qed.

Lemma validateApiKey_accepts apiKey provider prefix :
  header_value provider patterns = Some prefix →
  (validateApiKey apiKey provider = Gives true ↔
   ∃ body, apiKey = prefix +:+ body
           ∧ (32 ≤ String.length body)%nat ∧ all_alnum body = true).
Proof.
  intros Hp. unfold validateApiKey. rewrite Hp.
  destruct (String.eqb_spec apiKey "") as [->|Hne].
  - split; [discriminate|].
    intros (body & Heq & Hlen & _). destruct prefix; [|discriminate].
    rewrite string_app_nil_l in Heq. subst body. simpl in Hlen. lia.
  - rewrite <- key_shape_true. split; [by intros [= ->]|by intros ->].
Qed.

(** X15.  A key that [validateApiKey] accepts for a provider of the table is the
    prefix of that provider followed by at least 32 characters, all of them
    letters or digits; and every such key is accepted. *)
Theorem validateApiKey_shape apiKey provider prefix :
  header_value provider patterns = Some prefix →
  (validateApiKey apiKey provider = Gives true ↔
   ∃ body, apiKey = prefix +:+ body
           ∧ (32 ≤ String.length body)%nat ∧ all_alnum body = true).
Proof. apply validateApiKey_accepts. Qed.

Lemma header_value_elem k (h : Headers) v : header_value k h = Some v → (k, v) ∈ h.
Proof.
  induction h as [|[k' v'] h IH]; simpl; [done|].
  destruct (String.eqb_spec k' k) as [->|Hne].
  - intros [= ->]. left.
  - intros H. right. by apply IH.
Qed.

Lemma patterns_prefix provider prefix :
  header_value provider patterns = Some prefix →
  prefix ∈ ["sk-"; "sk-or-v1-"; "sk-ant-"; "gsk_"; ""; "pplx-"; "xai-"; "r8_"].
Proof.
  intros H%header_value_elem%list_elem_of_In. unfold patterns in H.
  simpl in H.
  repeat (destruct H as [H|H];
          [injection H as _ <-;
           repeat first [apply list_elem_of_here | apply list_elem_of_further]|]).
  done.
Qed.

Local Ltac expose_chars H :=
  repeat (rewrite ?string_app_cons, ?string_app_nil_l in H).

(** X17.  No key passes for two providers of the table whose patterns differ:
    the prefixes keep the providers apart. *)
Theorem validateApiKey_disjoint apiKey provider1 provider2 prefix1 prefix2 :
  header_value provider1 patterns = Some prefix1 →
  header_value provider2 patterns = Some prefix2 →
  validateApiKey apiKey provider1 = Gives true →
  validateApiKey apiKey provider2 = Gives true →
  prefix1 = prefix2.
Proof.
  intros Hp1 Hp2 H1 H2.
  apply (validateApiKey_accepts _ _ _ Hp1) in H1 as (b1 & -> & _ & Ha1).
  apply (validateApiKey_accepts _ _ _ Hp2) in H2 as (b2 & Heq & _ & Ha2).
  apply patterns_prefix, list_elem_of_In in Hp1.
  apply patterns_prefix, list_elem_of_In in Hp2.
  simpl in Hp1, Hp2.
  repeat (destruct Hp1 as [<-|Hp1]); [..|done];
    (repeat (destruct Hp2 as [<-|Hp2]); [..|done]);
    try reflexivity; exfalso;
    expose_chars Heq; simplify_eq; simpl in *; try discriminate.
Qed.

(** ** [generateSecureId] *)

Lemma id_char_alnum (byte : N) :
  String.length (id_char byte) = 1%nat ∧ all_alnum (id_char byte) = true.
Proof.
  unfold id_char.
  assert (Hlt : (N.to_nat (byte mod 62) < 62)%nat).
  { pose proof (N.mod_upper_bound byte 62 ltac:(done)). lia. }
  generalize dependent (N.to_nat (byte mod 62)). intros j Hlt.
  do 62 (destruct j as [|j]; [by vm_compute|]). lia.
Qed.

Lemma id_chars_alnum (entropy : nat → N) (l : list nat) :
  String.length (foldr (λ i acc, id_char (entropy i mod 256) +:+ acc) "" l)
  = length l
  ∧ all_alnum (foldr (λ i acc, id_char (entropy i mod 256) +:+ acc) "" l) = true.
Proof.
  induction l as [|i l [IHlen IHalnum]]; [done|].
  simpl foldr. rewrite string_length_app, all_alnum_app.
  destruct (id_char_alnum (entropy i mod 256)) as [-> ->].
  simpl. by rewrite IHlen, IHalnum.
Qed.


(** X16.  An identifier of [generateSecureId] offered as an API key:
    [validateApiKey] accepts it for the providers of the table whose
    pattern has no prefix, when it has at least 32 characters, and refuses
    it for every provider whose pattern has one, because each prefix holds
    a [-] or a [_], which no identifier does. *)
Theorem validateApiKey_generated (n : nat) (entropy : nat → N) provider prefix id :
  header_value provider patterns = Some prefix →
  generateSecureId n entropy = Gives id →
  validateApiKey id provider
  = Gives (String.eqb prefix "" && (32 <=? n)%nat).
Proof.
  intros Hp Hid. unfold generateSecureId in Hid.
  destruct (65536 <? N.of_nat n)%N; [discriminate|]. injection Hid as Hid.
  destruct (id_chars_alnum entropy (seq 0 n)) as [Hlen Halnum].
  rewrite Hid, length_seq in Hlen. rewrite Hid in Halnum. clear Hid.
  unfold validateApiKey. rewrite Hp.
  destruct (String.eqb_spec id "") as [->|_].
  - simpl in Hlen. subst n. by rewrite andb_false_r.
  - f_equal. unfold key_shape.
    destruct (strip_prefix prefix id) as [body|] eqn:Hs.
    + apply strip_prefix_Some in Hs. subst id.
      rewrite all_alnum_app in Halnum.
      apply andb_true_iff in Halnum as [Hprefix Hbody].
      apply patterns_prefix, list_elem_of_In in Hp. simpl in Hp.
      repeat (destruct Hp as [<-|Hp]; [try discriminate Hprefix|]); [|done].
      rewrite string_app_nil_l in Hlen. by rewrite Hlen, Hbody, andb_true_r.
    + destruct prefix; [discriminate|reflexivity].
Qed.

(** X19.  The identifiers are not uniform: of the 256 values of a random byte,
    five select each of the letters A to H and four select each of the
    other 54 characters. *)
Theorem generateSecureId_bias (j : nat) :
  (j < 62)%nat →
  length (filter (λ byte, id_char (N.of_nat byte) = id_char (N.of_nat j))
                 (seq 0 256))
  = if (j <? 8)%nat then 5%nat else 4%nat.
Proof.
  intros Hj.
  do 62 (destruct j as [|j]; [by vm_compute|]). lia.
Qed.

(** ** [maskSensitiveData] *)

Lemma strip_prefix_None (p s : string) :
  String.prefix p s = false → strip_prefix p s = None.
Proof.
  revert s. induction p as [|a p IH]; intros s; [by destruct s|].
  destruct s as [|b s]; [done|]. cbn [String.prefix strip_prefix].
  destruct (Ascii.ascii_dec a b) as [->|Hab].
  - rewrite Ascii.eqb_refl. apply IH.
  - intros _. by apply Ascii.eqb_neq in Hab as ->.
Qed.

(** Text in which [sk-] does not occur is returned as it is. *)
Lemma mask_from_plain (s : string) :
  includes "sk-" s = false → mask_from 0 s = s.
Proof.
  induction s as [|c s IH]; [done|].
  intros Hinc. cbn [includes] in Hinc.
  apply orb_false_iff in Hinc as [Hpre Hrest].
  cbn [mask_from]. rewrite (strip_prefix_None _ _ Hpre).
  by rewrite IH.
Qed.

Lemma includes_alnum (s : string) : all_alnum s = true → includes "sk-" s = false.
Proof.
  induction s as [|c s IH]; [done|].
  intros H. cbn [all_alnum] in H. apply andb_true_iff in H as [Hc Hs].
  cbn [includes]. rewrite (IH Hs), orb_false_r.
  destruct s as [|c2 [|c3 s]]; cbn [String.prefix];
    repeat (destruct (Ascii.ascii_dec _ _) as [?|?]; [|done]); try done.
  subst. cbn [all_alnum] in Hs.
  apply andb_true_iff in Hs as [_ Hs]. apply andb_true_iff in Hs as [Hs _].
  vm_compute in Hs. done.
Qed.

Lemma alnum_run_all (s : string) :
  all_alnum s = true → alnum_run s = String.length s.
Proof.
  induction s as [|c s IH]; [done|].
  intros [Hc Hs]%andb_true_iff. simpl. by rewrite Hc, IH.
Qed.

Lemma mask_from_skip (s : string) (k : nat) :
  (String.length s ≤ k)%nat → mask_from k s = "".
Proof.
  revert k. induction s as [|c s IH]; intros k Hk; [done|].
  simpl in Hk. destruct k as [|k]; [lia|]. simpl. apply IH. lia.
Qed.

Local Ltac expose_goal :=
  repeat rewrite ?string_app_cons, ?string_app_nil_l.

Lemma mask_from_keep c (rest : string) :
  match strip_prefix "sk-" (String c rest) with
  | Some body => (8 <=? alnum_run body)%nat
  | None => false
  end = false →
  mask_from 0 (String c rest) = String c (mask_from 0 rest).
Proof.
  intros H. cbn [mask_from].
  destruct (strip_prefix "sk-" (String c rest)) as [body|]; [|done].
  by rewrite H.
Qed.

Lemma mask_from_match c (rest body : string) :
  strip_prefix "sk-" (String c rest) = Some body →
  (8 ≤ alnum_run body)%nat →
  mask_from 0 (String c rest)
  = "sk-***" +:+ mask_from (2 + alnum_run body) rest.
Proof.
  intros Hs Hrun. cbn [mask_from]. rewrite Hs.
  by rewrite (proj2 (Nat.leb_le _ _)).
Qed.

(** X20.  What the masking of strings does to the keys that [validateApiKey]
    accepts: a key of the shape of [openai] and [deepseek] is replaced as a
    whole, and a key accepted for any other provider of the table comes
    back unmasked, since after its [sk-], if it has one, fewer than eight
    letters and digits follow. *)
Theorem maskSensitiveData_keys apiKey provider prefix :
  header_value provider patterns = Some prefix →
  validateApiKey apiKey provider = Gives true →
  maskSensitiveData (JStr apiKey)
  = JStr (if String.eqb prefix "sk-" then "sk-***" else apiKey).
Proof.
  intros Hp Hvalid.
  apply (validateApiKey_accepts _ _ _ Hp) in Hvalid as (body & -> & Hlen & Halnum).
  apply patterns_prefix, list_elem_of_In in Hp. cbn [In] in Hp.
  pose proof (mask_from_plain body (includes_alnum body Halnum)) as Hbody.
  pose proof (alnum_run_all body Halnum) as Hrun.
  cbn [maskSensitiveData]. unfold mask_string. f_equal.
  destruct Hp as [<-|Hp].
  - expose_goal.
    rewrite (mask_from_match _ _ body) by (first [reflexivity|lia]).
    rewrite mask_from_skip by (cbn [String.length]; lia). done.
  - repeat (destruct Hp as [<-|Hp]); [..|done]; expose_goal;
      repeat (rewrite mask_from_keep by reflexivity); by rewrite Hbody.
Qed.
Lemma Json_nested_ind (P : Json → Prop) :
  P JNull → (∀ b, P (JBool b)) → (∀ n, P (JNum n)) → (∀ s, P (JStr s)) →
  (∀ items, Forall P items → P (JArr items)) →
  (∀ fields, Forall (λ kv, P kv.2) fields → P (JObj fields)) →
  ∀ d, P d.
Proof.
  intros Hnull Hbool Hnum Hstr Harr Hobj.
  fix IH 1. intros [|b|n|s|items|fields].
  - exact Hnull.
  - apply Hbool.
  - apply Hnum.
  - apply Hstr.
  - apply Harr. induction items as [|x items IHitems]; constructor.
    + apply IH.
    + exact IHitems.
  - apply Hobj. induction fields as [|[k v] fields IHfields]; constructor.
    + apply IH.
    + exact IHfields.
Qed.

Lemma digit_not_letter (c : Ascii.ascii) :
  is_digit c = true →
  lower_char c = c
  ∧ ∀ other, is_digit other = false → Ascii.eqb other c = false.
Proof.
  intros Hc. split.
  - unfold lower_char, is_digit in *.
    destruct ((65 <=? Ascii.N_of_ascii c) && (Ascii.N_of_ascii c <=? 90))%N eqn:Hup;
      [|done].
    apply andb_true_iff in Hc as [_ Hc]. apply andb_true_iff in Hup as [Hup _].
    apply N.leb_le in Hc, Hup. lia.
  - intros other Hother. destruct (Ascii.eqb_spec other c) as [->|]; [|done].
    congruence.
Qed.

Lemma sensitive_digits (s : string) : all_digits s = true → sensitive s = false.
Proof.
  intros Hs.
  assert (Hlower : lower s = s).
  { induction s as [|c s IH]; [done|].
    cbn [all_digits] in Hs. apply andb_true_iff in Hs as [Hc Hs].
    destruct (digit_not_letter c Hc) as [Hl Hne].
    cbn [lower strip_prefix]. rewrite Hne by reflexivity. by rewrite Hl, IH. }
  unfold sensitive. rewrite Hlower. clear Hlower.
  assert (Hno : ∀ c rest,
            is_digit c = false → includes (String c rest) s = false).
  { intros c rest Hc. induction s as [|d s IH]; [done|].
    cbn [all_digits] in Hs. apply andb_true_iff in Hs as [Hd Hs].
    cbn [includes String.prefix]. rewrite (IH Hs), orb_false_r.
    destruct (Ascii.ascii_dec c d) as [->|]; [congruence|done]. }
  by rewrite !Hno by reflexivity.
Qed.

(** X21.  Masking goes through the whole document: in the result no field with
    [key] or [token] in its name, at any depth, holds anything but the three
    stars.  The result has no array left either: the copy that the function
    makes of an array is an object with the indices as keys. *)
Theorem maskSensitiveData_deep (d : Json) :
  leaks (maskSensitiveData d) = false
  ∧ has_array (maskSensitiveData d) = false.
Proof.
  induction d as [|b|n|s|items IH|fields IH] using Json_nested_ind; try done.
  - cbn [maskSensitiveData].
    assert (Hgen : ∀ i,
      existsb (λ kv : string * Json,
                 if sensitive kv.1 then negb (is_stars kv.2) else leaks kv.2)
              (indexed i (map maskSensitiveData items)) = false
      ∧ existsb (λ kv : string * Json, has_array kv.2)
                (indexed i (map maskSensitiveData items)) = false).
    { induction IH as [|x items [Hl Ha] _ IHitems]; intros i; [done|].
      destruct (IHitems (i + 1)%N) as [Hls Has].
      cbn [map indexed existsb fst snd].
      rewrite (sensitive_digits _ (pretty_N_digits i)).
      by rewrite Hl, Ha, Hls, Has. }
    apply (Hgen 0%N).
  - cbn [maskSensitiveData leaks has_array].
    induction IH as [|[k v] fields [Hl Ha] _ IHfields]; [done|].
    destruct IHfields as [Hls Has].
    cbn [map existsb fst snd]. rewrite Hls, Has, !orb_false_r.
    destruct (sensitive k); by cbn.
Qed.
(** ** [sanitizeInput] *)

Lemma escape_text_cons c (rest : string) :
  escape_text (String c rest)
  = let n := Ascii.N_of_ascii c in
    if (n =? 38)%N then "&amp;" +:+ escape_text rest
    else if (n =? 60)%N then "&lt;" +:+ escape_text rest
    else if (n =? 62)%N then "&gt;" +:+ escape_text rest
    else
      match rest with
      | String c' rest' =>
          if ((n =? 194) && (Ascii.N_of_ascii c' =? 160))%N
          then "&nbsp;" +:+ escape_text rest'
          else String c (escape_text rest)
      | EmptyString => String c ""
      end.
Proof. reflexivity. Qed.

Lemma includes_char_cons a c (rest : string) :
  includes (String a "") (String c rest)
  = (if Ascii.ascii_dec a c then true else false) || includes (String a "") rest.
Proof.
  cbn [includes String.prefix].
  destruct (Ascii.ascii_dec a c); [|done]. by destruct rest.
Qed.

Lemma includes_char_app a (l x : string) :
  includes (String a "") l = false →
  includes (String a "") (l +:+ x) = includes (String a "") x.
Proof.
  induction l as [|c l IH]; [done|].
  rewrite string_app_cons, !includes_char_cons.
  intros [Hc Hl]%orb_false_iff. by rewrite Hc, IH.
Qed.

Lemma char_differs a c :
  Ascii.N_of_ascii c ≠ Ascii.N_of_ascii a →
  (if Ascii.ascii_dec a c then true else false) = false.
Proof. intros Hne. destruct (Ascii.ascii_dec a c) as [->|]; done. Qed.

Lemma escape_text_without a :
  (Ascii.N_of_ascii a = 60 ∨ Ascii.N_of_ascii a = 62)%N →
  includes (String a "") "&amp;" = false →
  includes (String a "") "&lt;" = false →
  includes (String a "") "&gt;" = false →
  includes (String a "") "&nbsp;" = false →
  ∀ s, includes (String a "") (escape_text s) = false.
Proof.
  intros Ha Hamp Hlt Hgt Hnbsp.
  assert (Hboth : ∀ s,
    includes (String a "") (escape_text s) = false
    ∧ ∀ c, includes (String a "") (escape_text (String c s)) = false).
  { induction s as [|b s [IH1 IH2]].
    - split; [done|]. intros c. rewrite escape_text_cons. cbv zeta.
      repeat case_match; rewrite ?includes_char_app by done; try done.
      rewrite includes_char_cons, char_differs; [done|].
      repeat match goal with H : (_ =? _)%N = false |- _ =>
               apply N.eqb_neq in H end.
      destruct Ha as [-> | ->]; done.
    - split; [apply IH2|]. intros c. rewrite escape_text_cons. cbv zeta.
      repeat case_match; rewrite ?includes_char_app by done; try done.
      rewrite includes_char_cons, char_differs; [apply IH2|].
      repeat match goal with H : (_ =? _)%N = false |- _ =>
               apply N.eqb_neq in H end.
      destruct Ha as [-> | ->]; done. }
  intros s. apply Hboth.
Qed.

(** X22.  Whatever the input, the text that [sanitizeInput] returns contains
    neither [<] nor [>]. *)
Theorem sanitizeInput_no_markup (input : string) :
  includes "<" (sanitizeInput input) = false
  ∧ includes ">" (sanitizeInput input) = false.
Proof.
  unfold sanitizeInput. split; apply escape_text_without; by vm_compute; auto.
Qed.

(** X23.  Input without [&], [<], [>] and without a no-break space comes back
    unchanged: quotes of both kinds are not escaped. *)
Theorem sanitizeInput_plain (input : string) :
  includes "&" input = false →
  includes "<" input = false →
  includes ">" input = false →
  includes (String (Ascii.ascii_of_N 194) (String (Ascii.ascii_of_N 160) "")) input
  = false →
  sanitizeInput input = input.
Proof.
  unfold sanitizeInput. induction input as [|c s IH]; [done|].
  rewrite !includes_char_cons.
  intros [Hamp Hamps]%orb_false_iff [Hlt Hlts]%orb_false_iff
         [Hgt Hgts]%orb_false_iff Hnbsp.
  cbn [includes] in Hnbsp. apply orb_false_iff in Hnbsp as [Hnb Hnbs].
  rewrite escape_text_cons. cbv zeta.
  assert (Hcode : ∀ n, (if Ascii.ascii_dec (Ascii.ascii_of_N n) c then true else false)
                       = false → (n < 256)%N → (Ascii.N_of_ascii c =? n)%N = false).
  { intros n Hn Hlt256. apply N.eqb_neq. intros Heq.
    rewrite <- Heq, Ascii.ascii_N_embedding in Hn.
    by destruct (Ascii.ascii_dec c c). }
  rewrite (Hcode 38%N Hamp), (Hcode 60%N Hlt), (Hcode 62%N Hgt) by done.
  destruct s as [|c' s]; [done|].
  rewrite IH by done.
  destruct ((Ascii.N_of_ascii c =? 194) && (Ascii.N_of_ascii c' =? 160))%N eqn:Hn;
    [|done].
  apply andb_true_iff in Hn as [H1%N.eqb_eq H2%N.eqb_eq].
  exfalso. cbn [String.prefix] in Hnb.
  rewrite <- H1, <- H2, !Ascii.ascii_N_embedding in Hnb.
  destruct (Ascii.ascii_dec c c); [|done].
  destruct (Ascii.ascii_dec c' c'); [|done].
  by destruct s.
Qed.
(** ** [formatErrorMessage] and [recordMetric] *)

(** X24.  [formatErrorMessage] never returns a falsy value, except for the empty
    string, which it returns as it is; and a truthy [message] of the error
    itself wins over a [response.data.message]. *)
Theorem formatErrorMessage_truthy (error : Json) :
  (error ≠ JStr "" → truthy (Some (formatErrorMessage error)) = true)
  ∧ (∀ m, get_prop "message" (Some error) = Some m → truthy (Some m) = true →
          formatErrorMessage error = m).
Proof.
  split.
  - intros Hne. unfold formatErrorMessage.
    destruct error as [|b|n|s|items|fields]; try done.
    + simpl. destruct (String.eqb_spec s "") as [->|]; done.
    + destruct (get_prop "message" (Some (JObj fields))) as [m|] eqn:Hm;
        destruct (get_prop "message" (get_prop "data" _)) as [m'|] eqn:Hm';
        cbn [default]; repeat case_match; try done.
  - intros m Hm Ht. unfold formatErrorMessage.
    destruct error as [|b|n|s|items|fields]; try done.
    by rewrite Hm, Ht.
Qed.

Lemma recordMetric_window_step {V : Type} (all : list (PerformanceMetric V)) m :
  recordMetric (pm_name m) (pm_value m) (pm_unit m) (pm_timestamp m)
               (drop (length all - 1000) all)
  = drop (length (all ++ [m]) - 1000) (all ++ [m]).
Proof.
  unfold recordMetric.
  replace (mkPerformanceMetric (pm_name m) (pm_value m) (pm_unit m) (pm_timestamp m))
    with m by (by destruct m).
  assert (Hpos : (1 ≤ 1000)%nat) by lia. revert Hpos.
  generalize 1000%nat. intros limit Hpos.
  destruct (decide (limit ≤ length all)%nat) as [Hbig|Hsmall].
  - rewrite (proj2 (Nat.ltb_lt _ _)) by (rewrite length_app, length_drop; simpl; lia).
    rewrite !length_app, length_drop. simpl length.
    replace (length all - (length all - limit) + 1 - limit)%nat with 1%nat by lia.
    rewrite drop_app_le by (rewrite length_drop; lia).
    rewrite drop_drop, (drop_app_le all) by lia.
    do 2 f_equal. lia.
  - replace (length all - limit)%nat with 0%nat by lia. rewrite drop_0.
    rewrite (proj2 (Nat.ltb_ge _ _)) by (rewrite length_app; simpl; lia).
    rewrite length_app. simpl length.
    replace (length all + 1 - limit)%nat with 0%nat by lia. done.
Qed.

(** X25.  The buffer of the monitor is a window on what was recorded: after any
    number of [recordMetric] calls it holds the last 1000 metrics, in the
    order in which they were recorded, and so never more than 1000. *)
Theorem recordMetric_window {V : Type} (ms : list (PerformanceMetric V)) :
  record_all ms [] = drop (length ms - 1000) ms
  ∧ (length (record_all ms []) ≤ 1000)%nat.
Proof.
  assert (Hwin : record_all ms [] = drop (length ms - 1000) ms).
  { induction ms as [|m ms IH] using rev_ind; [done|].
    unfold record_all in *. rewrite foldl_app. simpl. rewrite IH.
    apply recordMetric_window_step. }
  split; [exact Hwin|]. rewrite Hwin, length_drop. lia.
Qed.

(** ** Storing and reading back *)

(** X1.  What [setCache] writes is what the cache then holds under the key, the
    entries under other keys stay as they were, a second [setCache] for the
    key replaces the first, and [isCacheValid] accepts the entry for the
    following [ttl] milliseconds and no longer; with a [ttl] of zero or less
    it never does. *)
Theorem setCache_roundtrip key d ttl w :
  cache (setCache key d ttl w) !! key = Some (mkCacheEntry d (now w) ttl)
  ∧ (∀ key', key' ≠ key → cache (setCache key d ttl w) !! key' = cache w !! key')
  ∧ (∀ d' ttl', setCache key d ttl (setCache key d' ttl' w) = setCache key d ttl w)
  ∧ (∀ dt, isCacheValid key (advance dt (setCache key d ttl w))
           = bool_decide (Z.max 0 dt < ttl)).
Proof.
  split; [|split; [|split]].
  - apply lookup_insert_eq.
  - intros key' Hne. simpl. by rewrite lookup_insert_ne.
  - intros d' ttl'. unfold setCache. simpl. f_equal. apply insert_insert_eq.
  - intros dt. apply setCache_live.
Qed.

(** ** The further theorems at sample inputs *)

Lemma setCache_roundtrip_witness :
  cache (setCache "GET:https://api.example/y:" JNull 5 Sample.w_cached)
  !! "GET:https://api.example/x:" = Some Sample.entry.
Proof.
  destruct (setCache_roundtrip "GET:https://api.example/y:" JNull 5 Sample.w_cached)
    as (_ & Hother & _).
  rewrite Hother; [reflexivity|discriminate].
Defined.

Lemma clearExpiredCache_keeps_live_witness :
  cache (clearExpiredCache (advance 299999 Sample.w_cached))
  !! "GET:https://api.example/x:" = Some Sample.entry.
Proof.
  destruct (clearExpiredCache_keeps_live (advance 299999 Sample.w_cached))
    as (_ & Hkept & _).
  apply Hkept; reflexivity.
Defined.

Lemma negative_retries_reject_witness :
  request Cases.cfg_no_attempt Sample.online "/x" Sample.get_x true 300000 Sample.w0
  = (Rejected (mkJsError "Error" "Request failed after all retries"), Sample.w0).
Proof.
  apply (negative_retries_reject Cases.cfg_no_attempt Sample.online "/x"
           Sample.get_x true 300000 Sample.w0); reflexivity.
Defined.

Lemma total_backoff_witness :
  ∃ t,
    trace (request Sample.cfg Sample.offline "/x" Sample.get_x true 300000
                   Sample.w0).2 = trace Sample.w0 ++ t
    ∧ waited t = 1000 * (2 ^ 2 - 1).
Proof.
  apply (total_backoff Sample.cfg Sample.offline "/x" Sample.get_x true 300000
           Sample.w0).
  - discriminate.
  - reflexivity.
  - intros j _. eexists. reflexivity.
Defined.

Lemma no_timer_left_without_rejection_witness :
  mkTimer 7 50000000 ∈ timers Cases.w_timer.
Proof.
  apply (no_timer_left_without_rejection Sample.cfg Sample.silent "/x"
           Sample.get_x true 300000 Cases.w_timer (mkTimer 7 50000000)).
  - intros k latency msg Hk. discriminate Hk.
  - vm_compute. apply list_elem_of_here.
Defined.

Lemma getCacheKey_separates_witness :
  resolve Sample.cfg "/x" = "https://api.example/x".
Proof.
  destruct getCacheKey_separates as (Hinj & _).
  apply (Hinj (resolve Sample.cfg "/x") "https://api.example/x" Sample.get_x).
  reflexivity.
Defined.

Lemma resolve_absolute_witness :
  resolve Sample.cfg "https://other.example/y" = "https://other.example/y"
  ∧ String.prefix "http" (resolve Sample.cfg "/x") = true
  ∧ resolve Sample.cfg (resolve Sample.cfg "/x") = resolve Sample.cfg "/x".
Proof.
  split.
  - apply (resolve_absolute Sample.cfg "https://other.example/y"). reflexivity.
  - apply (resolve_absolute Sample.cfg "/x"). reflexivity.
Defined.

Lemma merged_headers_precedence_witness :
  header_value "Content-Type" (merged_headers Sample.get_x) = Some "application/json"
  ∧ header_value "Content-Type" (merged_headers Cases.json_headers)
    = Some "application/xml".
Proof.
  split.
  - apply (merged_headers_precedence Sample.get_x). constructor.
  - apply (proj2 (merged_headers_precedence Cases.json_headers)
             "Content-Type" "application/xml"
             [("Accept", "text/plain"); ("Content-Type", "text/plain")] []).
    + reflexivity.
    + constructor.
Defined.

Lemma get_refetches_after_expiry_witness :
  let w1 := (get Sample.cfg Sample.online "/x" true Sample.w0).2 in
  fetches w1 = 1%nat
  ∧ isCacheValid "GET:https://api.example/x:" w1 = true
  ∧ cache_hit Sample.cfg "/x" Sample.get_x true (advance 300000 w1) = false
  ∧ (fetches w1 < fetches (get Sample.cfg Sample.online "/x" true
                               (advance 300000 w1)).2)%nat.
Proof.
  apply (get_refetches_after_expiry Sample.cfg Sample.online "/x" Sample.w0
           5%N Sample.created (JNum 7) 300000); try reflexivity; discriminate.
Defined.

Lemma createRateLimiter_counts_witness :
  (serve 2 1000 Cases.burst ∅).1 = granted_by_count 2 1000 Cases.burst [].
Proof.
  apply (createRateLimiter_counts 2 1000 Cases.burst 0).
  repeat split; discriminate.
Defined.

Lemma createRateLimiter_bounded_witness :
  (1 ≤ length [1000; 1010])%nat ∧ Z.of_nat (length [1000; 1010]) ≤ 2.
Proof.
  apply (createRateLimiter_bounded 2 1000 Cases.burst "a" [1000; 1010]).
  reflexivity.
Defined.

Lemma validateApiKey_shape_witness :
  validateApiKey Cases.anthropic_key "anthropic" = Gives true ↔
  ∃ body, Cases.anthropic_key = "sk-ant-" +:+ body
          ∧ (32 ≤ String.length body)%nat ∧ all_alnum body = true.
Proof.
  apply (validateApiKey_shape Cases.anthropic_key "anthropic" "sk-ant-").
  reflexivity.
Defined.

Lemma validateApiKey_generated_witness :
  validateApiKey "CfGrS3eFiJuV6hAlMxY9kDoP0bCnGrS3" "mistral" = Gives true
  ∧ validateApiKey "CfGrS3eFiJuV6hAlMxY9kDoP0bCnGrS3" "openai" = Gives false.
Proof.
  split.
  - apply (validateApiKey_generated 32 (λ i, N.of_nat (37 * i + 250))
             "mistral" "" "CfGrS3eFiJuV6hAlMxY9kDoP0bCnGrS3");
      reflexivity.
  - apply (validateApiKey_generated 32 (λ i, N.of_nat (37 * i + 250))
             "openai" "sk-" "CfGrS3eFiJuV6hAlMxY9kDoP0bCnGrS3");
      reflexivity.
Defined.

Lemma validateApiKey_disjoint_witness : "sk-" = "sk-".
Proof.
  apply (validateApiKey_disjoint Cases.openai_key "openai" "deepseek" "sk-" "sk-");
    reflexivity.
Defined.


Lemma generateSecureId_bias_witness :
  length (filter (λ byte, id_char (N.of_nat byte) = id_char (N.of_nat 7))
                 (seq 0 256)) = 5%nat.
Proof. apply (generateSecureId_bias 7). repeat constructor. Defined.

Lemma maskSensitiveData_keys_witness :
  maskSensitiveData (JStr Cases.anthropic_key) = JStr Cases.anthropic_key
  ∧ maskSensitiveData (JStr Cases.openai_key) = JStr "sk-***".
Proof.
  split.
  - apply (maskSensitiveData_keys Cases.anthropic_key "anthropic" "sk-ant-");
      reflexivity.
  - apply (maskSensitiveData_keys Cases.openai_key "openai" "sk-"); reflexivity.
Defined.

Lemma sanitizeInput_plain_witness :
  sanitizeInput ("say 'hi' to " +:+ quote "them")
  = "say 'hi' to " +:+ quote "them".
Proof. apply sanitizeInput_plain; reflexivity. Defined.

Lemma formatErrorMessage_truthy_witness :
  truthy (Some (formatErrorMessage JNull)) = true
  ∧ formatErrorMessage Cases.server_error = JStr "Boom".
Proof.
  split.
  - apply (formatErrorMessage_truthy JNull). discriminate.
  - apply (formatErrorMessage_truthy Cases.server_error); reflexivity.
Defined.

(** ** Calls that bypass the cache *)

Section Uncached.

Variable config : Config.
Variable net : nat → FetchBehaviour.

(** X26.  A call without [useCache], or with a method other than GET, is never
    answered from the cache: with [retries ≥ 0] it invokes [fetch] at least
    once, even when the cache holds a live entry under its key.  This is so
    for every [post], [put] and [delete]. *)
Theorem uncached_call_fetches url options useCache cacheTTL w :
  0 ≤ cfg_retries config →
  (useCache = false ∨ method_is_GET options = false →
   (fetches w < fetches (request config net url options useCache cacheTTL w).2)%nat)
  ∧ (∀ d, (fetches w < fetches (post config net url d w).2)%nat)
  ∧ (∀ d, (fetches w < fetches (put config net url d w).2)%nat)
  ∧ (fetches w < fetches (delete config net url w).2)%nat.
Proof.
  intros Hretries.
  assert (Hgen : ∀ options' useCache' ttl,
    useCache' = false ∨ method_is_GET options' = false →
    (fetches w < fetches (request config net url options' useCache' ttl w).2)%nat).
  { intros options' useCache' ttl Hnot.
    assert (Hmiss : cache_hit config url options' useCache' w = false).
    { unfold cache_hit. destruct Hnot as [-> | ->]; [done|].
      by rewrite andb_false_r. }
    rewrite request_miss by done. rewrite seqZ_cons by lia. simpl attempts.
    match goal with
    | |- context [attempt_try _ _ ?u ?o ?c ?ttl ?key w] =>
        pose proof (attempt_try_fetches config net u o c ttl key w) as Hf;
        destruct (attempt_try config net u o c ttl key w) as [[r|e] w']
    end; simpl in Hf; simpl.
    - lia.
    - match goal with
      | |- context [attempts _ _ ?u ?o ?c ?ttl ?key ?idx ?err ?w''] =>
          pose proof (attempts_fetches_bound config net u o c ttl key idx err w'') as Hb
      end.
      simpl in Hb. rewrite attempt_catch_fetches in Hb. lia. }
  split; [apply Hgen|].
  unfold post, put, delete.
  split; [|split]; intros; apply Hgen; by left.
Qed.

End Uncached.

Lemma uncached_call_fetches_witness :
  (fetches Sample.w_cached
   < fetches (request Sample.cfg Sample.online "/x" Sample.get_x false 300000
                      Sample.w_cached).2)%nat.
Proof.
  assert (Hretries : 0 ≤ cfg_retries Sample.cfg) by discriminate.
  destruct (uncached_call_fetches Sample.cfg Sample.online "/x" Sample.get_x false
              300000 Sample.w_cached Hretries) as (Hcall & _).
  apply Hcall. left. reflexivity.
Defined.
